(** * The Options Automator ([sentry configoptions]): reconciliation of a YAML
    document against the options store.

    The development embeds [src/sentry/runner/commands/configoptions.py]:
    the per-key reconciler [_attempt_update], the start-up validation of the
    [configoptions] command group, and the two workflows [patch] and [sync].
    Effects ([click.echo], [exit], the calls into [sentry.options]) are
    threaded through a small state / trace / exception monad. *)

From Stdlib Require Import Ascii.
From stdpp Require Import base strings list gmap.

Local Open Scope string_scope.
Local Open Scope list_scope.

(** ** Message templates (configoptions.py, lines 11-14)

    [MSG % key] with a single [%s] is the template with the key spliced in. *)

Definition DRIFT_MSG (key : string) : string :=
  "[DRIFT] Option " +:+ key +:+ " drifted and cannot be updated.".
Definition CHANNEL_UPDATE_MSG (key : string) : string :=
  "[CHANNEL UPDATE] Option " +:+ key +:+ " value unchanged. Last update channel updated.".
Definition UPDATE_MSG (key : string) : string :=
  "[UPDATE] Option " +:+ key +:+ " updated.".
Definition UNSET_MSG (key : string) : string :=
  "[UNSET] Option " +:+ key +:+ " unset.".

(** The banner both workflows print when [--dry-run] is given. *)
Definition DRY_RUN_BANNER : string :=
  "!!! Dry-run flag on. No update will be performed.".

(** ** Data model *)

(** Modelled from the spec: [options.UpdateChannel] is declared in
    [sentry.options], which is not among the sources.  The spec's data model
    gives the last-update channel of an option as "none/unset, Automator,
    other"; the unset case is [None : option UpdateChannel]. *)
Inductive UpdateChannel : Type :=
| AUTOMATOR
| OtherChannel (name : string).

(** Modelled from the spec: [options.NotWritableReason] is declared in
    [sentry.options], which is not among the sources.  [can_update] answers
    [None] or a typed denial reason; only [DRIFTED] is told apart from the
    others (read-only, credential-protected, ...), whose [.value] is the text
    printed in the diagnostic. *)
Inductive NotWritableReason : Type :=
| DRIFTED
| OtherReason (value : string).

#[global] Instance UpdateChannel_eq_dec : EqDecision UpdateChannel.
Proof. solve_decision. Defined.
#[global] Instance NotWritableReason_eq_dec : EqDecision NotWritableReason.
Proof. solve_decision. Defined.

(** The [.value] of a denial reason, as interpolated by the f-string of
    line 143.  The value of [DRIFTED] is never printed by this command. *)
Definition reason_value (r : NotWritableReason) : string :=
  match r with
  | DRIFTED => "drifted"
  | OtherReason value => value
  end.

(** What [yaml.safe_load] returns: [None], a mapping (a Python [dict], kept
    as its item list in insertion order, keys being option names or path
    segments), or any other value (scalars and sequences), which this command
    never inspects and which stay opaque as [A]. *)
#[local] Set Warnings "-register-all".
Inductive yaml (A : Type) : Type :=
| YNone
| YLeaf (a : A)
| YDict (items : list (string * yaml A)).
#[local] Set Warnings "register-all".
Arguments YNone {A}.
Arguments YLeaf {A} a.
Arguments YDict {A} items.

(** Python's [==] on option values. *)
Class PyEq (V : Type) := py_eq : V → V → bool.

(** *** Python dictionaries as item lists *)

(** [key in d] and [d[key]] / [d.get(key)]: the value bound to [key]. *)
Fixpoint dict_lookup {V : Type} (key : string) (items : list (string * V)) : option V :=
  match items with
  | [] => None
  | (k, v) :: rest => if bool_decide (k = key) then Some v else dict_lookup key rest
  end.

Definition dict_contains {V : Type} (key : string) (items : list (string * V)) : bool :=
  match dict_lookup key items with Some _ => true | None => false end.

(** The keys of a dictionary are pairwise distinct. *)
Definition dict_wf {V : Type} (items : list (string * V)) : Prop := NoDup items.*1.

(** ** The options store *)

(** Modelled from the spec: the options store [sentry.options] is an external
    collaborator whose code is not among the sources.  Its interface is the
    one the spec lists as consumed: [get(key)], [set(key, value, channel)]
    (with the [coerce] flag the call sites pass), [delete(key)], [isset(key)],
    [get_last_update_channel(key)], [can_update(key, value, channel)]
    answering [None] or a reason, and [filter(capability_flag)] enumerating
    the eligible options, kept here by their [.name].  [S] is the state of the
    store, [V] the type of option values.  The operations are total: a
    failure inside the store (an option it does not know, a write it rejects)
    is not modelled. *)
Class OptionsStore (V S : Type) : Type := {
  options_get : S → string → V;
  options_set : string → V → bool → UpdateChannel → S → S;
  options_delete : string → S → S;
  options_isset : S → string → bool;
  options_get_last_update_channel : S → string → option UpdateChannel;
  options_can_update : S → string → V → UpdateChannel → option NotWritableReason;
  options_filter : S → Z → list string;
  FLAG_AUTOMATOR_MODIFIABLE : Z
}.

(** ** Effects *)

(** What a run does to the outside world, in order: lines printed with
    [click.echo] and mutating calls into the store. *)
Inductive event (V : Type) : Type :=
| Echo (msg : string)
| OptionsSet (key : string) (value : V) (coerce : bool) (channel : UpdateChannel)
| OptionsDelete (key : string).
Arguments Echo {V} msg.
Arguments OptionsSet {V} key value coerce channel.
Arguments OptionsDelete {V} key.

(** How a computation ends: normally, by [exit(code)], or by an uncaught
    exception. *)
Inductive outcome (A : Type) : Type :=
| Returns (a : A)
| Exits (code : Z)
| Raises (exc : string).
Arguments Returns {A} a.
Arguments Exits {A} code.
Arguments Raises {A} exc.

(** A computation takes the store and gives back how it ended, the store it
    left and the events it produced.  Effects performed before an [exit] or
    an exception persist. *)
Definition M (V S A : Type) : Type := S → outcome A * S * list (event V).

Section Monad.
Context {V S : Type}.

Definition ret {A} (a : A) : M V S A := λ s, (Returns a, s, []).

Definition bind {A B} (m : M V S A) (k : A → M V S B) : M V S B := λ s,
  match m s with
  | (Returns a, s1, t1) =>
      match k a s1 with (o, s2, t2) => (o, s2, t1 ++ t2) end
  | (Exits code, s1, t1) => (Exits code, s1, t1)
  | (Raises exc, s1, t1) => (Raises exc, s1, t1)
  end.

(** [click.echo(msg)] *)
Definition echo (msg : string) : M V S unit := λ s, (Returns (), s, [Echo msg]).

(** [exit(code)] *)
Definition sys_exit {A} (code : Z) : M V S A := λ s, (Exits code, s, []).

(** An uncaught exception. *)
Definition raise {A} (exc : string) : M V S A := λ s, (Raises exc, s, []).

(** [if cond: body] *)
Definition when (cond : bool) (body : M V S unit) : M V S unit :=
  if cond then body else ret ().

(** [for x in xs: body(x)] *)
Fixpoint for_each {A} (xs : list A) (body : A → M V S unit) : M V S unit :=
  match xs with
  | [] => ret ()
  | x :: rest => bind (body x) (λ _, for_each rest body)
  end.

(** A [for] loop that updates local variables, held in [acc]. *)
Fixpoint for_fold {A B} (xs : list A) (acc : B) (body : B → A → M V S B) : M V S B :=
  match xs with
  | [] => ret acc
  | x :: rest => bind (body acc x) (λ acc', for_fold rest acc' body)
  end.
End Monad.

Notation "'do' x <- m ; k" := (bind m (λ x, k))
  (at level 10, x name, m at level 100, k at level 200,
   format "'[v' 'do'  x  <-  m ; '/' k ']'").
Notation "m ;; k" := (bind m (λ _, k))
  (at level 100, k at level 200, right associativity).

(** The store calls of a trace that mutate it. *)
Fixpoint mutations {V} (t : list (event V)) : list (event V) :=
  match t with
  | [] => []
  | Echo _ :: rest => mutations rest
  | e :: rest => e :: mutations rest
  end.


(** [s.split(sep)] for a one-character separator. *)
Fixpoint split_on (sep : ascii) (s : string) : list string :=
  match s with
  | EmptyString => [EmptyString]
  | String c rest =>
      if bool_decide (c = sep) then EmptyString :: split_on sep rest
      else match split_on sep rest with
           | [] => [String c EmptyString]
           | word :: words => String c word :: words
           end
  end.

(** The two subcommands of the group. *)
Inductive subcommand : Type := Patch | Sync.

Section Commands.
Context {A S : Type} `{!PyEq (yaml A)} `{!OptionsStore (yaml A) S}.

#[local] Abbreviation value := (yaml A).
#[local] Abbreviation cmd := (M (yaml A) S).

(** *** Calls into the store *)

Definition opt_get (key : string) : cmd value :=
  λ s, (Returns (options_get s key), s, []).
Definition opt_get_last_update_channel (key : string) : cmd (option UpdateChannel) :=
  λ s, (Returns (options_get_last_update_channel s key), s, []).
Definition opt_isset (key : string) : cmd bool :=
  λ s, (Returns (options_isset s key), s, []).
Definition opt_can_update (key : string) (v : value) (channel : UpdateChannel)
  : cmd (option NotWritableReason) :=
  λ s, (Returns (options_can_update s key v channel), s, []).
Definition opt_filter (flag : Z) : cmd (list string) :=
  λ s, (Returns (options_filter s flag), s, []).
Definition opt_set (key : string) (v : value) (coerce : bool) (channel : UpdateChannel)
  : cmd unit :=
  λ s, (Returns (), options_set key v coerce channel s, [OptionsSet key v coerce channel]).
Definition opt_delete (key : string) : cmd unit :=
  λ s, (Returns (), options_delete key s, [OptionsDelete key]).

(** *** [_attempt_update] (configoptions.py, lines 17-53) *)

Definition _attempt_update (key : string) (v : value)
    (drifted_options : gset string) (dry_run : bool) : cmd unit :=
  if bool_decide (key ∈ drifted_options) then
    echo (DRIFT_MSG key)
  else
    do current <- opt_get key;
    if py_eq current v then
      do last_update_channel <- opt_get_last_update_channel key;
      match last_update_channel with
      | None =>
          when (negb dry_run) (opt_set key v false AUTOMATOR);;
          echo (UPDATE_MSG key)
      | Some channel =>
          if bool_decide (channel ≠ AUTOMATOR) then
            when (negb dry_run) (opt_set key v false AUTOMATOR);;
            echo (CHANNEL_UPDATE_MSG key)
          else ret ()
      end
    else
      when (negb dry_run) (opt_set key v false AUTOMATOR);;
      echo (UPDATE_MSG key).

(** *** The [configoptions] group (configoptions.py, lines 74-149)

    [ctx.obj], with the three entries the command stores in it. *)
Record ctx_obj : Type := {
  ctx_dry_run : bool;
  ctx_options_to_update : list (string * value);
  ctx_drifted_options : gset string
}.

(** One round of the loop of lines 127-133; the loop updates [options_map]
    and [current_path].  [.get] on anything but a [dict] is an
    [AttributeError]; on a [dict] it answers [None] for an absent key (and
    for a key bound to [None]). *)
Definition descend (st : value * string) (key : string) : cmd (value * string) :=
  let '(options_map, current_path) := st in
  if bool_decide (key ≠ EmptyString) then
    match options_map with
    | YDict items =>
        match dict_lookup key items with
        | None | Some YNone =>
            echo ("Invalid path. Key " +:+ key +:+ " not found in /" +:+ current_path);;
            sys_exit (-1)
        | Some found => ret (found, current_path +:+ "/" +:+ key)
        end
    | _ => raise "AttributeError"
    end
  else ret st.

(** One round of the loop of lines 138-147; the loop updates
    [drifted_options].  A reason is truthy, [None] is not. *)
Definition check_writable (drifted_options : gset string) (item : string * value)
  : cmd (gset string) :=
  let '(key, v) := item in
  do not_writable_reason <- opt_can_update key v AUTOMATOR;
  if bool_decide (is_Some not_writable_reason)
     && bool_decide (not_writable_reason ≠ Some DRIFTED) then
    echo ("Invalid option. " +:+ key +:+ " cannot be updated. Reason "
          +:+ from_option reason_value EmptyString not_writable_reason);;
    sys_exit (-1)
  else if bool_decide (not_writable_reason = Some DRIFTED) then
    ret ({[key]} ∪ drifted_options)
  else ret drifted_options.

(** [document] is what [yaml.safe_load] read from the file or from stdin. *)
Definition configoptions (dry_run : bool) (document : value) (path : string)
  : cmd ctx_obj :=
  let path_list := split_on "/"%char path ++ ["options"] in
  do st <- for_fold path_list (document, EmptyString) descend;
  match st.1 with
  | YDict options_map =>
      do drifted_options <- for_fold options_map ∅ check_writable;
      ret {| ctx_dry_run := dry_run;
             ctx_options_to_update := options_map;
             ctx_drifted_options := drifted_options |}
  | _ => raise "AttributeError"
  end.

(** *** [patch] (configoptions.py, lines 155-166) *)

(** The body of the loop of lines 165-166, for one [key, value] item. *)
Definition patch_item (ctx : ctx_obj) (item : string * value) : cmd unit :=
  let '(key, v) := item in
  _attempt_update key v (ctx_drifted_options ctx) (ctx_dry_run ctx).

Definition patch (ctx : ctx_obj) : cmd unit :=
  let dry_run := ctx_dry_run ctx in
  when dry_run (echo DRY_RUN_BANNER);;
  for_each (ctx_options_to_update ctx) (patch_item ctx).

(** *** [sync] (configoptions.py, lines 172-200) *)

(** The body of the loop of lines 188-200, for the option named [name]. *)
Definition sync_option (ctx : ctx_obj) (name : string) : cmd unit :=
  let dry_run := ctx_dry_run ctx in
  let options_to_update := ctx_options_to_update ctx in
  if dict_contains name options_to_update then
    match dict_lookup name options_to_update with
    | Some v => _attempt_update name v (ctx_drifted_options ctx) dry_run
    | None => raise "KeyError"
    end
  else
    do is_set <- opt_isset name;
    if is_set then
      do last_update_channel <- opt_get_last_update_channel name;
      if bool_decide (last_update_channel = Some AUTOMATOR) then
        when (negb dry_run) (opt_delete name);;
        echo (UNSET_MSG name)
      else echo (DRIFT_MSG name)
    else ret ().

Definition sync (ctx : ctx_obj) : cmd unit :=
  let dry_run := ctx_dry_run ctx in
  when dry_run (echo DRY_RUN_BANNER);;
  do all_options <- opt_filter FLAG_AUTOMATOR_MODIFIABLE;
  for_each all_options (sync_option ctx).

(** *** A whole invocation: the group callback, then the subcommand *)

Definition run_subcommand (sub : subcommand) (ctx : ctx_obj) : cmd unit :=
  match sub with
  | Patch => patch ctx
  | Sync => sync ctx
  end.

Definition main (sub : subcommand) (dry_run : bool) (document : value) (path : string)
  : cmd unit :=
  do ctx <- configoptions dry_run document path;
  run_subcommand sub ctx.

End Commands.

(** ** A reference store *)

(** Modelled from the spec: [sentry.options] is not among the sources; this
    store follows the spec's data model of an option entry (current value,
    last-update channel, writability classification, eligibility for
    automation).  An option that is not set reads as [YNone] and has no
    channel; [can_update] is an oracle, here a table from keys to denial
    reasons that the run never changes.  The value of
    [FLAG_AUTOMATOR_MODIFIABLE] is not among the sources either; any one
    capability bit will do. *)
Record store : Type := {
  st_values : gmap string (yaml Z);
  st_channels : gmap string UpdateChannel;
  st_denied : gmap string NotWritableReason;
  st_eligible : list string
}.

(** [==] on the reference values: integers, [None], and mappings compared
    item by item in the order they are written.  Python disregards that
    order, and knows more scalars than integers; this comparison is used at
    integer values only, where it agrees with Python ([yaml_scalar_eqb] below
    compares mappings as Python does and has a float). *)
Fixpoint yaml_eqb (a b : yaml Z) : bool :=
  match a, b with
  | YNone, YNone => true
  | YLeaf x, YLeaf y => bool_decide (x = y)
  | YDict xs, YDict ys =>
      (fix items_eqb (xs ys : list (string * yaml Z)) : bool :=
         match xs, ys with
         | [], [] => true
         | (k, v) :: xs', (k', v') :: ys' =>
             bool_decide (k = k') && yaml_eqb v v' && items_eqb xs' ys'
         | _, _ => false
         end) xs ys
  | _, _ => false
  end.

#[global] Instance yaml_py_eq : PyEq (yaml Z) := yaml_eqb.

#[global] Instance store_options : OptionsStore (yaml Z) store := {|
  options_get s key := default YNone (st_values s !! key);
  options_set key v coerce channel s :=
    {| st_values := <[key := v]> (st_values s);
       st_channels := <[key := channel]> (st_channels s);
       st_denied := st_denied s;
       st_eligible := st_eligible s |};
  options_delete key s :=
    {| st_values := delete key (st_values s);
       st_channels := delete key (st_channels s);
       st_denied := st_denied s;
       st_eligible := st_eligible s |};
  options_isset s key := bool_decide (is_Some (st_values s !! key));
  options_get_last_update_channel s key := st_channels s !! key;
  options_can_update s key v channel := st_denied s !! key;
  options_filter s flag :=
    if bool_decide (flag = 128%Z) then remove_dups (st_eligible s) else [];
  FLAG_AUTOMATOR_MODIFIABLE := 128%Z
|}.

(** The end-to-end scenario of the spec: the document is
    [{"options": {"a": 1, "b": 2}}]; in the store [a] is unset, [b] is 2 and
    owned by the automator, [c] is 5 and owned by another channel; all three
    are eligible. *)
Definition scenario_document : yaml Z :=
  YDict [("options", YDict [("a", YLeaf 1%Z); ("b", YLeaf 2%Z)])].

Definition scenario_store : store := {|
  st_values := <["b" := YLeaf 2%Z]> (<["c" := YLeaf 5%Z]> ∅);
  st_channels := <["b" := AUTOMATOR]> (<["c" := OtherChannel "cli"]> ∅);
  st_denied := ∅;
  st_eligible := ["a"; "b"; "c"]
|}.

(** The same store before the automator ever ran: [a] was seeded with 1 by
    a writer that recorded no channel. *)
Definition seeded_store : store := {|
  st_values := <["a" := YLeaf 1%Z]> (st_values scenario_store);
  st_channels := st_channels scenario_store;
  st_denied := ∅;
  st_eligible := ["a"; "b"; "c"]
|}.

(** A store that reports [c] as drifted and [b] as read-only. *)
Definition guarded_store : store := {|
  st_values := st_values scenario_store;
  st_channels := st_channels scenario_store;
  st_denied := <["c" := DRIFTED]> (<["b" := OtherReason "readonly"]> ∅);
  st_eligible := ["a"; "b"; "c"]
|}.

(** The context of the scenario: what the group callback stores for
    [scenario_document] when no key is denied. *)
Definition scenario_ctx (dry_run : bool) : ctx_obj (A := Z) := {|
  ctx_dry_run := dry_run;
  ctx_options_to_update := [("a", YLeaf 1%Z); ("b", YLeaf 2%Z)];
  ctx_drifted_options := ∅
|}.

(** ** Notions used to state the properties *)

(** The three components of what a computation gives back. *)
Definition result {V S A} (r : outcome A * S * list (event V)) : outcome A := r.1.1.
Definition final {V S A} (r : outcome A * S * list (event V)) : S := r.1.2.
Definition trace {V S A} (r : outcome A * S * list (event V)) : list (event V) := r.2.

Section Replay.
Context {V S : Type} `{!OptionsStore V S}.

(** The effect of one event on the store. *)
Definition apply_event (e : event V) (s : S) : S :=
  match e with
  | Echo _ => s
  | OptionsSet key v coerce channel => options_set key v coerce channel s
  | OptionsDelete key => options_delete key s
  end.

(** The store a trace leaves when its events happen in order from [s]. *)
Definition replay (t : list (event V)) (s : S) : S :=
  foldl (λ s e, apply_event e s) s t.

(** Every event of [t] satisfies [P] in the store in which it happens. *)
Fixpoint trace_ok (P : S → event V → Prop) (s : S) (t : list (event V)) : Prop :=
  match t with
  | [] => True
  | e :: rest => P s e ∧ trace_ok P (apply_event e s) rest
  end.

(** Two stores tell the same about the option [key]. *)
Definition same_at (key : string) (s s' : S) : Prop :=
  options_get s' key = options_get s key
  ∧ options_get_last_update_channel s' key = options_get_last_update_channel s key
  ∧ options_isset s' key = options_isset s key
  ∧ ∀ v channel, options_can_update s' key v channel = options_can_update s key v channel.

End Replay.

(** Modelled from the spec: the store is a key-value store with a last-update
    channel per option, whose code is not among the sources.  What is read
    after a write is what was written, with the channel of the write; a
    deleted option is no longer set; a write or a deletion leaves every other
    option as it was; the registry that [filter] enumerates names each option
    once and does not change during a run. *)
Class OptionsStoreLaws (V S : Type) `{!PyEq V} `{!OptionsStore V S} : Prop := {
  get_set_eq key v coerce channel (s : S) :
    py_eq (options_get (options_set key v coerce channel s) key) v = true;
  channel_set_eq key (v : V) coerce channel (s : S) :
    options_get_last_update_channel (options_set key v coerce channel s) key = Some channel;
  isset_delete_eq key (s : S) :
    options_isset (options_delete key s) key = false;
  set_frame key key' (v : V) coerce channel (s : S) :
    key ≠ key' → same_at key' s (options_set key v coerce channel s);
  delete_frame key key' (s : S) :
    key ≠ key' → same_at (V := V) key' s (options_delete key s);
  filter_set key (v : V) coerce channel (s : S) flag :
    options_filter (options_set key v coerce channel s) flag = options_filter s flag;
  filter_delete key (s : S) flag :
    options_filter (options_delete key s) flag = options_filter (V := V) s flag;
  filter_NoDup (s : S) flag : NoDup (options_filter (V := V) s flag)
}.

Section Statements.
Context {A S : Type} `{!PyEq (yaml A)} `{!OptionsStore (yaml A) S}.
#[local] Abbreviation value := (yaml A).

(** The path segments that are looked up: the non-empty ones of
    [path.split("/")], then ["options"]. *)
Definition segments (path : string) : list string :=
  filter (λ key, key ≠ EmptyString) (split_on "/"%char path ++ ["options"]).

(** Where following a list of segments through nested mappings ends. *)
Inductive path_status : Type :=
| PathFound (target : value)
| PathMissing (key : string)
| PathNotMapping.

(** Following the segments from [doc]: a segment is missing when the mapping
    reached so far has no value (or [None]) under it. *)
Fixpoint follow (segs : list string) (doc : value) : path_status :=
  match segs with
  | [] => PathFound doc
  | key :: rest =>
      match doc with
      | YDict items =>
          match dict_lookup key items with
          | None | Some YNone => PathMissing key
          | Some found => follow rest found
          end
      | _ => PathNotMapping
      end
  end.

(** The options sub-document a path leads to; empty when it leads nowhere or
    to something that is not a mapping. *)
Definition options_at (path : string) (doc : value) : list (string * value) :=
  match follow (segments path) doc with
  | PathFound (YDict items) => items
  | _ => []
  end.

(** The reason for which the automation channel may not write an item, when
    that reason is not drift. *)
Definition denied (s : S) (item : string * value) : option NotWritableReason :=
  match options_can_update s item.1 item.2 AUTOMATOR with
  | Some reason => if bool_decide (reason = DRIFTED) then None else Some reason
  | None => None
  end.

(** The first item of the input that is denied for another reason than
    drift. *)
Fixpoint first_invalid (s : S) (items : list (string * value))
  : option (string * NotWritableReason) :=
  match items with
  | [] => None
  | item :: rest =>
      match denied s item with
      | Some reason => Some (item.1, reason)
      | None => first_invalid s rest
      end
  end.

(** The keys of the input that the store reports as drifted. *)
Definition drift_set (s : S) (items : list (string * value)) : gset string :=
  list_to_set
    (fst <$> filter (λ item, options_can_update s item.1 item.2 AUTOMATOR = Some DRIFTED)
                    items).

(** The decision table of the spec's reconciler contract (section 4.1),
    written from the spec's words: the five outcomes, which of them write,
    and the line each prints. *)
Inductive action : Type :=
| SKIP
| SET_CHANNEL_AND_ANNOUNCE_UPDATE
| CHANNEL_UPDATE
| NO_OP
| UPDATE.

Definition reconcile (values_equal : bool) (lastUpdateChannel : option UpdateChannel)
    (isDrifted : bool) : action :=
  if isDrifted then SKIP
  else if values_equal then
    match lastUpdateChannel with
    | None => SET_CHANNEL_AND_ANNOUNCE_UPDATE
    | Some channel => if bool_decide (channel = AUTOMATOR) then NO_OP else CHANNEL_UPDATE
    end
  else UPDATE.

Definition action_writes (a : action) : bool :=
  match a with
  | SKIP | NO_OP => false
  | SET_CHANNEL_AND_ANNOUNCE_UPDATE | CHANNEL_UPDATE | UPDATE => true
  end.

Definition action_message (a : action) (key : string) : list string :=
  match a with
  | SKIP => [DRIFT_MSG key]
  | SET_CHANNEL_AND_ANNOUNCE_UPDATE | UPDATE => [UPDATE_MSG key]
  | CHANNEL_UPDATE => [CHANNEL_UPDATE_MSG key]
  | NO_OP => []
  end.

(** The table's outcome for [key] with desired value [v] in the store [s]. *)
Definition decision (key : string) (v : value) (drifted : gset string) (s : S) : action :=
  reconcile (py_eq (options_get s key) v)
            (options_get_last_update_channel s key)
            (bool_decide (key ∈ drifted)).

(** A write that stamps the automation channel on a key of the input, with
    the value the input gives it. *)
Definition stamped_write (items : list (string * value)) (e : event value) : Prop :=
  ∃ key v, e = OptionsSet key v false AUTOMATOR ∧ (key, v) ∈ items.

(** A deletion of an eligible option that the input does not mention and
    that is, in the store [s] in which it happens, set and owned by the
    automation channel. *)
Definition owned_delete (items : list (string * value)) (eligible : list string)
    (s : S) (e : event value) : Prop :=
  ∃ key, e = OptionsDelete key ∧ key ∈ eligible ∧ dict_contains key items = false
         ∧ options_isset s key = true
         ∧ options_get_last_update_channel s key = Some AUTOMATOR.

(** What a workflow may do to the store: print, write a key of the input
    with the automation channel, or delete an eligible option that the input
    does not mention and that the automation channel owns. *)
Definition permitted (items : list (string * value)) (eligible : list string)
    (s : S) (e : event value) : Prop :=
  match e with
  | Echo _ => True
  | OptionsSet _ _ _ _ => stamped_write items e
  | OptionsDelete _ => owned_delete items eligible s e
  end.

End Statements.

(** ** Further notions: the path walked, announcements, the option concerned *)

(** [current_path] once the loop of lines 127-133 has gone through [keys]:
    each key is appended after a slash. *)
Definition walked (keys : list string) : string :=
  foldl (λ current_path key, current_path +:+ "/" +:+ key) EmptyString keys.

(** The option a mutating call concerns. *)
Definition event_key {V} (e : event V) : option string :=
  match e with
  | Echo _ => None
  | OptionsSet key _ _ _ => Some key
  | OptionsDelete key => Some key
  end.

(** Every mutating call of the trace is followed at once by the line that
    announces it: a write by the update or the channel-update line of its
    key, a deletion by the unset line of its key. *)
Fixpoint announced {V} (t : list (event V)) : Prop :=
  match t with
  | [] => True
  | OptionsSet key _ _ _ :: rest =>
      (head rest = Some (Echo (UPDATE_MSG key))
       ∨ head rest = Some (Echo (CHANNEL_UPDATE_MSG key)))
      ∧ announced rest
  | OptionsDelete key :: rest =>
      head rest = Some (Echo (UNSET_MSG key)) ∧ announced rest
  | Echo _ :: rest => announced rest
  end.

(** A document whose options sit two levels down, under [region] and
    [prod]. *)
Definition nested_document : yaml Z :=
  YDict [("region", YDict [("prod", scenario_document); ("empty", YNone)])].

(** A store in which [c], which the scenario's input does not mention, is
    owned by the automation channel. *)
Definition orphan_store : store := {|
  st_values := st_values scenario_store;
  st_channels := <["c" := AUTOMATOR]> (st_channels scenario_store);
  st_denied := ∅;
  st_eligible := ["a"; "b"; "c"]
|}.

(** ** The laws that do not speak of [==], and values that read back *)

(** Modelled from the spec: the laws of [OptionsStoreLaws] but for the first,
    for a store whose code is not among the sources: a write records its
    channel; a deleted option is no longer set; a write or a deletion leaves
    every other option as it was; the registry that [filter] enumerates names
    each option once and does not change during a run.  Nothing is said of
    what [==] finds of a value that is read after it was written. *)
Class OptionsStoreFrame (V S : Type) `{!OptionsStore V S} : Prop := {
  frame_channel_set key (v : V) coerce channel (s : S) :
    options_get_last_update_channel (options_set key v coerce channel s) key = Some channel;
  frame_isset_delete key (s : S) :
    options_isset (V := V) (options_delete key s) key = false;
  frame_set key key' (v : V) coerce channel (s : S) :
    key ≠ key' → same_at key' s (options_set key v coerce channel s);
  frame_delete key key' (s : S) :
    key ≠ key' → same_at (V := V) key' s (options_delete key s);
  frame_filter_set key (v : V) coerce channel (s : S) flag :
    options_filter (options_set key v coerce channel s) flag = options_filter s flag;
  frame_filter_delete key (s : S) flag :
    options_filter (options_delete key s) flag = options_filter (V := V) s flag;
  frame_filter_NoDup (s : S) flag : NoDup (options_filter (V := V) s flag)
}.

(** The value [v] reads back: what the store returns for an option after [v]
    was written to it compares [==] to [v].  In a store that returns what was
    set this is [v == v], which Python grants to every value but
    [float('nan')]. *)
Definition reads_back {V S : Type} `{!PyEq V} `{!OptionsStore V S} (v : V) : Prop :=
  ∀ key coerce channel (s : S),
    py_eq (options_get (options_set key v coerce channel s) key) v = true.

(** ** A store of values that include a float *)

(** Scalars with one float: [SNaN] is [float('nan')], which YAML writes
    [.nan] and which [==] finds equal to nothing, itself included. *)
Inductive scalar : Type :=
| SInt (n : Z)
| SNaN.

Definition scalar_eqb (a b : scalar) : bool :=
  match a, b with
  | SInt x, SInt y => bool_decide (x = y)
  | _, _ => false
  end.

(** [==] on these values: mappings are compared as Python compares
    dictionaries, by size and key by key, whatever the order. *)
Fixpoint yaml_scalar_eqb (a b : yaml scalar) : bool :=
  match a, b with
  | YNone, YNone => true
  | YLeaf x, YLeaf y => scalar_eqb x y
  | YDict xs, YDict ys =>
      bool_decide (length xs = length ys)
      && (fix all_bound (xs : list (string * yaml scalar)) : bool :=
            match xs with
            | [] => true
            | (k, v) :: rest =>
                match dict_lookup k ys with
                | Some v' => yaml_scalar_eqb v v'
                | None => false
                end && all_bound rest
            end) xs
  | _, _ => false
  end.

#[global] Instance yaml_scalar_py_eq : PyEq (yaml scalar) := yaml_scalar_eqb.

(** Modelled from the spec: a plain key-value store over these values, for
    [sentry.options], whose code is not among the sources: [get] returns what
    was set ([YNone] for an option that is not set), every write is allowed,
    and the registry is a list. *)
Record float_store : Type := {
  fs_values : gmap string (yaml scalar);
  fs_channels : gmap string UpdateChannel;
  fs_eligible : list string
}.

#[global] Instance float_store_options : OptionsStore (yaml scalar) float_store := {|
  options_get s key := default YNone (fs_values s !! key);
  options_set key v coerce channel s :=
    {| fs_values := <[key := v]> (fs_values s);
       fs_channels := <[key := channel]> (fs_channels s);
       fs_eligible := fs_eligible s |};
  options_delete key s :=
    {| fs_values := delete key (fs_values s);
       fs_channels := delete key (fs_channels s);
       fs_eligible := fs_eligible s |};
  options_isset s key := bool_decide (is_Some (fs_values s !! key));
  options_get_last_update_channel s key := fs_channels s !! key;
  options_can_update s key v channel := None;
  options_filter s flag :=
    if bool_decide (flag = 128%Z) then remove_dups (fs_eligible s) else [];
  FLAG_AUTOMATOR_MODIFIABLE := 128%Z
|}.




(** A document whose [region] is a scalar. *)
Definition scalar_document : yaml Z :=
  YDict [("region", YLeaf 5%Z)].

(** * Properties *)

(** ** The monad *)

Section MonadFacts.
Context {V S : Type} `{!OptionsStore V S}.
Implicit Types (s : S) (t : list (event V)).

Lemma bind_returns {A B} (m : M V S A) (k : A → M V S B) s a :
  result (m s) = Returns a →
  bind m k s = (result (k a (final (m s))),
                final (k a (final (m s))),
                trace (m s) ++ trace (k a (final (m s)))).
Proof.
  unfold bind, result, final, trace.
  destruct (m s) as [[o s1] t1]; simpl. intros ->.
  by destruct (k a s1) as [[o2 s2] t2].
Qed.

Lemma bind_exits {A B} (m : M V S A) (k : A → M V S B) s code :
  result (m s) = Exits code →
  bind m k s = (Exits code, final (m s), trace (m s)).
Proof.
  unfold bind, result, final, trace.
  destruct (m s) as [[o s1] t1]; simpl. by intros ->.
Qed.

Lemma bind_raises {A B} (m : M V S A) (k : A → M V S B) s exc :
  result (m s) = Raises exc →
  bind m k s = (Raises exc, final (m s), trace (m s)).
Proof.
  unfold bind, result, final, trace.
  destruct (m s) as [[o s1] t1]; simpl. by intros ->.
Qed.

Lemma triple_eta {A} (r : outcome A * S * list (event V)) :
  r = (result r, final r, trace r).
Proof. by destruct r as [[? ?] ?]. Qed.

(** A loop whose body always returns returns, and runs the rounds in
    order, each in the store the previous one left. *)
Lemma for_each_returns {A} (xs : list A) (body : A → M V S unit) s :
  (∀ x s, result (body x s) = Returns ()) →
  result (for_each xs body s) = Returns ().
Proof.
  intros Hbody. revert s. induction xs as [|x xs IH]; intros s; [done|].
  simpl. rewrite (bind_returns _ _ _ ()) by apply Hbody. apply IH.
Qed.

Lemma for_each_cons {A} (x : A) (xs : list A) (body : A → M V S unit) s :
  (∀ x s, result (body x s) = Returns ()) →
  for_each (x :: xs) body s
  = (Returns (),
     final (for_each xs body (final (body x s))),
     trace (body x s) ++ trace (for_each xs body (final (body x s)))).
Proof.
  intros Hbody. simpl. rewrite (bind_returns _ _ _ ()) by apply Hbody.
  f_equal. f_equal. by apply for_each_returns.
Qed.

Lemma replay_app t1 t2 s : replay (t1 ++ t2) s = replay t2 (replay t1 s).
Proof. apply foldl_app. Qed.

Lemma trace_ok_app (P : S → event V → Prop) t1 t2 s :
  trace_ok P s (t1 ++ t2) ↔ trace_ok P s t1 ∧ trace_ok P (replay t1 s) t2.
Proof.
  revert s. induction t1 as [|e t1 IH]; intros s; simpl; [tauto|].
  rewrite IH. tauto.
Qed.

Lemma trace_ok_weaken (P Q : S → event V → Prop) t s :
  (∀ s e, P s e → Q s e) → trace_ok P s t → trace_ok Q s t.
Proof.
  intros HPQ. revert s. induction t as [|e t IH]; intros s; simpl; [done|].
  intros [? ?]. split; auto.
Qed.

Lemma mutations_app t1 t2 : mutations (t1 ++ t2) = mutations t1 ++ mutations t2.
Proof.
  induction t1 as [|[msg| |] t1 IH]; simpl; [done|done| |]; by rewrite IH.
Qed.


(** A trace without mutating calls leaves the store as it was. *)
Lemma replay_no_mutation t s : mutations t = [] → replay t s = s.
Proof.
  revert s. induction t as [|[msg| |] t IH]; intros s; simpl; [done| |done|done].
  apply IH.
Qed.

End MonadFacts.

(** ** The reconciler *)

Section Reconciler.
Context {A S : Type} `{!PyEq (yaml A)} `{!OptionsStore (yaml A) S}.
Implicit Types (s : S) (key : string) (v : yaml A) (drifted : gset string).

(** The write of lines 42, 47 and 52, skipped in a dry run: what it leaves
    and what it logs. *)
Lemma write_unless_dry key v (dry_run : bool) s :
  when (negb dry_run) (opt_set key v false AUTOMATOR) s
  = (Returns (),
     if dry_run then s else options_set key v false AUTOMATOR s,
     if dry_run then [] else [OptionsSet key v false AUTOMATOR]).
Proof. by destruct dry_run. Qed.

(** [_attempt_update] carries out the spec's decision table: it always
    returns, performs the one stamped write exactly when the table's outcome
    writes and the run is not dry, and prints the outcome's line. *)
Lemma attempt_update_reconcile key v drifted (dry_run : bool) s :
  _attempt_update key v drifted dry_run s
  = (Returns (),
     if action_writes (decision key v drifted s) && negb dry_run
     then options_set key v false AUTOMATOR s else s,
     (if action_writes (decision key v drifted s) && negb dry_run
      then [OptionsSet key v false AUTOMATOR] else [])
     ++ (Echo <$> action_message (decision key v drifted s) key)).
Proof.
  unfold _attempt_update, decision, reconcile.
  destruct (bool_decide (key ∈ drifted)); [done|].
  unfold bind at 1, opt_get.
  destruct (py_eq (options_get s key) v).
  - unfold bind at 1, opt_get_last_update_channel.
    destruct (options_get_last_update_channel s key) as [channel|].
    + destruct (decide (channel = AUTOMATOR)) as [->|Hne].
      * rewrite bool_decide_eq_false_2 by (intros Hne; by apply Hne).
        by rewrite bool_decide_eq_true_2.
      * rewrite bool_decide_eq_true_2 by done.
        rewrite (bool_decide_eq_false_2 (channel = AUTOMATOR)) by done.
        unfold bind. rewrite write_unless_dry. by destruct dry_run.
    + unfold bind. rewrite write_unless_dry. by destruct dry_run.
  - unfold bind. rewrite write_unless_dry. by destruct dry_run.
Qed.

(** C1. A key of the drift set is skipped: whatever the desired value, the
    stored value and the dry-run flag, [_attempt_update] returns with the
    store as it was and with the drift message for that key as its only
    event, so without any call that mutates the store. *)
Theorem attempt_update_drifted key v drifted (dry_run : bool) s :
  key ∈ drifted →
  _attempt_update key v drifted dry_run s = (Returns (), s, [Echo (DRIFT_MSG key)])
  ∧ mutations (trace (_attempt_update key v drifted dry_run s)) = [].
Proof.
  intros Hin. rewrite attempt_update_reconcile. unfold decision, reconcile.
  by rewrite bool_decide_eq_true_2.
Qed.

(** C2. A key outside the drift set whose stored value equals the desired
    one and whose last-update channel is unset: the automation channel is
    stamped by one [options.set(key, value, coerce=False, channel=AUTOMATOR)]
    unless the run is dry, and the update message is printed. *)
Theorem attempt_update_stamps_unset_channel key v drifted (dry_run : bool) s :
  key ∉ drifted →
  py_eq (options_get s key) v = true →
  options_get_last_update_channel s key = None →
  _attempt_update key v drifted dry_run s
  = (Returns (),
     if dry_run then s else options_set key v false AUTOMATOR s,
     (if dry_run then [] else [OptionsSet key v false AUTOMATOR])
     ++ [Echo (UPDATE_MSG key)]).
Proof.
  intros Hin Heq Hchan. rewrite attempt_update_reconcile. unfold decision, reconcile.
  rewrite bool_decide_eq_false_2, Heq, Hchan by done. by destruct dry_run.
Qed.

(** C3. A key outside the drift set whose stored value equals the desired
    one and whose last-update channel is set to a channel other than the
    automation channel: the channel is stamped by one
    [options.set(key, value, coerce=False, channel=AUTOMATOR)] with the value
    that compared equal, unless the run is dry, and the channel-update
    message, which says that the value is unchanged, is printed. *)
Theorem attempt_update_channel_only key v drifted (dry_run : bool) s channel :
  key ∉ drifted →
  py_eq (options_get s key) v = true →
  options_get_last_update_channel s key = Some channel →
  channel ≠ AUTOMATOR →
  _attempt_update key v drifted dry_run s
  = (Returns (),
     if dry_run then s else options_set key v false AUTOMATOR s,
     (if dry_run then [] else [OptionsSet key v false AUTOMATOR])
     ++ [Echo (CHANNEL_UPDATE_MSG key)]).
Proof.
  intros Hin Heq Hchan Hne. rewrite attempt_update_reconcile. unfold decision, reconcile.
  rewrite bool_decide_eq_false_2, Heq, Hchan by done.
  rewrite bool_decide_eq_false_2 by done. by destruct dry_run.
Qed.

(** C4. A key outside the drift set whose stored value differs from the
    desired one: the desired value is written with the automation channel by
    one [options.set(key, value, coerce=False, channel=AUTOMATOR)] unless the
    run is dry, and the update message is printed. *)
Theorem attempt_update_writes_changed_value key v drifted (dry_run : bool) s :
  key ∉ drifted →
  py_eq (options_get s key) v = false →
  _attempt_update key v drifted dry_run s
  = (Returns (),
     if dry_run then s else options_set key v false AUTOMATOR s,
     (if dry_run then [] else [OptionsSet key v false AUTOMATOR])
     ++ [Echo (UPDATE_MSG key)]).
Proof.
  intros Hin Hne. rewrite attempt_update_reconcile. unfold decision, reconcile.
  rewrite bool_decide_eq_false_2, Hne by done. by destruct dry_run.
Qed.


End Reconciler.

(** ** Dictionaries *)

Lemma dict_contains_lookup {V} name (items : list (string * V)) :
  dict_contains name items = true ↔ ∃ v, dict_lookup name items = Some v.
Proof.
  unfold dict_contains. destruct (dict_lookup name items) as [w|].
  - split; eauto.
  - split; [done|]. by intros [? ?].
Qed.

Lemma dict_lookup_elem_of {V} name (v : V) (items : list (string * V)) :
  dict_lookup name items = Some v → (name, v) ∈ items.
Proof.
  induction items as [|[k w] items IH]; simpl; [done|].
  case_bool_decide as Hk.
  - intros [= ->]. subst. apply list_elem_of_here.
  - intros Hl. apply list_elem_of_further. by apply IH.
Qed.

Lemma elem_of_dict_lookup {V} name (v : V) (items : list (string * V)) :
  dict_wf items → (name, v) ∈ items → dict_lookup name items = Some v.
Proof.
  unfold dict_wf. induction items as [|[k w] items IH]; simpl.
  - intros _ Hin. by apply elem_of_nil in Hin.
  - intros Hnd Hin. apply NoDup_cons in Hnd as [Hk Hnd].
    apply elem_of_cons in Hin as [[= -> ->]|Hin].
    + by rewrite bool_decide_eq_true_2.
    + rewrite bool_decide_eq_false_2; [by apply IH|].
      intros ->. apply Hk. apply list_elem_of_fmap. by exists (name, v).
Qed.

(** ** Consequences for one round of a workflow *)

Section Rounds.
Context {A S : Type} `{!PyEq (yaml A)} `{!OptionsStore (yaml A) S}.
Implicit Types (s : S) (key name : string) (v : yaml A) (drifted : gset string).
Implicit Types (ctx : ctx_obj (A := A)).

Lemma same_at_refl key s : same_at (V := yaml A) key s s.
Proof. by repeat split. Qed.

Lemma same_at_trans key s1 s2 s3 :
  same_at (V := yaml A) key s1 s2 → same_at (V := yaml A) key s2 s3 →
  same_at (V := yaml A) key s1 s3.
Proof.
  intros (Hg & Hc & Hi & Hu) (Hg' & Hc' & Hi' & Hu').
  repeat split; [congruence..|]. intros v channel. by rewrite Hu', Hu.
Qed.

Lemma attempt_update_result key v drifted (dry_run : bool) s :
  result (_attempt_update key v drifted dry_run s) = Returns ().
Proof. by rewrite attempt_update_reconcile. Qed.

(** The store the reconciler leaves is the one its logged calls produce. *)
Lemma attempt_update_final key v drifted (dry_run : bool) s :
  final (_attempt_update key v drifted dry_run s)
  = replay (trace (_attempt_update key v drifted dry_run s)) s.
Proof.
  rewrite attempt_update_reconcile. unfold final, trace; simpl.
  destruct (action_writes _ && negb dry_run); simpl.
  - by rewrite replay_no_mutation by (by destruct (decision key v drifted s)).
  - by rewrite replay_no_mutation by (by destruct (decision key v drifted s)).
Qed.

(** Its only mutating call is the stamped write of the key it is given. *)
Lemma attempt_update_mutations key v drifted (dry_run : bool) s :
  mutations (trace (_attempt_update key v drifted dry_run s))
  = if action_writes (decision key v drifted s) && negb dry_run
    then [OptionsSet key v false AUTOMATOR] else [].
Proof.
  rewrite attempt_update_reconcile. unfold trace; simpl.
  rewrite mutations_app.
  replace (mutations (Echo <$> action_message (decision key v drifted s) key))
    with (@nil (event (yaml A))) by (by destruct (decision key v drifted s)).
  rewrite app_nil_r. by destruct (action_writes _ && negb dry_run).
Qed.


(** The table's outcome for a key depends on the store only through what it
    tells about that key. *)
Lemma decision_same_at key v drifted s s' :
  same_at key s s' → decision key v drifted s' = decision key v drifted s.
Proof. intros (Hg & Hc & _). unfold decision. by rewrite Hg, Hc. Qed.

Lemma attempt_update_trace_same_at key v drifted (dry_run : bool) s s' :
  same_at key s s' →
  trace (_attempt_update key v drifted dry_run s')
  = trace (_attempt_update key v drifted dry_run s).
Proof.
  intros Hsame. rewrite !attempt_update_reconcile. unfold trace; simpl.
  by rewrite (decision_same_at _ _ _ s s').
Qed.

(** *** One round of [sync] *)

(** A key of the input is handed to the reconciler with the input's value. *)
Lemma sync_option_present ctx name v s :
  dict_lookup name (ctx_options_to_update ctx) = Some v →
  sync_option ctx name s
  = _attempt_update name v (ctx_drifted_options ctx) (ctx_dry_run ctx) s.
Proof.
  intros Hl. unfold sync_option, dict_contains. by rewrite Hl.
Qed.

(** A key the input does not mention is deleted when it is set and owned by
    the automation channel, reported when it is set and owned by another,
    and passed over when it is not set. *)
Lemma sync_option_absent_run ctx name s :
  dict_contains name (ctx_options_to_update ctx) = false →
  sync_option ctx name s
  = if options_isset s name then
      if bool_decide (options_get_last_update_channel s name = Some AUTOMATOR) then
        (Returns (),
         if ctx_dry_run ctx then s else options_delete name s,
         (if ctx_dry_run ctx then [] else [OptionsDelete name]) ++ [Echo (UNSET_MSG name)])
      else (Returns (), s, [Echo (DRIFT_MSG name)])
    else (Returns (), s, []).
Proof.
  intros Hc. unfold sync_option. rewrite Hc.
  unfold bind at 1, opt_isset. destruct (options_isset s name); [|done].
  unfold bind at 1, opt_get_last_update_channel.
  case_bool_decide; [|done].
  unfold bind, when, opt_delete, echo, ret. by destruct (ctx_dry_run ctx).
Qed.

Lemma sync_option_result ctx name s :
  result (sync_option ctx name s) = Returns ().
Proof.
  destruct (dict_contains name (ctx_options_to_update ctx)) eqn:Hc.
  - apply dict_contains_lookup in Hc as [v Hv].
    rewrite (sync_option_present _ _ v) by done. apply attempt_update_result.
  - rewrite sync_option_absent_run by done.
    destruct (options_isset s name); [|done]. by case_bool_decide.
Qed.

Lemma sync_option_final ctx name s :
  final (sync_option ctx name s) = replay (trace (sync_option ctx name s)) s.
Proof.
  destruct (dict_contains name (ctx_options_to_update ctx)) eqn:Hc.
  - apply dict_contains_lookup in Hc as [v Hv].
    rewrite (sync_option_present _ _ v) by done. apply attempt_update_final.
  - rewrite sync_option_absent_run by done.
    destruct (options_isset s name); [|done].
    case_bool_decide; [|done]. by destruct (ctx_dry_run ctx).
Qed.

Lemma sync_option_trace_same_at ctx name s s' :
  same_at (V := yaml A) name s s' →
  trace (sync_option ctx name s') = trace (sync_option ctx name s).
Proof.
  intros Hsame.
  destruct (dict_contains name (ctx_options_to_update ctx)) eqn:Hc.
  - apply dict_contains_lookup in Hc as [v Hv].
    rewrite !(sync_option_present _ _ v) by done.
    by apply attempt_update_trace_same_at.
  - rewrite !sync_option_absent_run by done.
    destruct Hsame as (_ & -> & -> & _).
    destruct (options_isset s name); [|done]. by case_bool_decide.
Qed.

End Rounds.

(** ** Loops whose rounds each concern one option *)

Section Loops.
Context {V S X : Type} `{!OptionsStore V S}.
Variable body : X → M V S unit.
Variable key_of : X → string.
Implicit Types (s : S) (x : X) (xs : list X).

Hypothesis body_returns : ∀ x s, result (body x s) = Returns ().
Hypothesis body_final : ∀ x s, final (body x s) = replay (trace (body x s)) s.

Lemma loop_final xs s :
  final (for_each xs body s) = replay (trace (for_each xs body s)) s.
Proof.
  revert s. induction xs as [|x xs IH]; intros s; [done|].
  rewrite for_each_cons by done. unfold final at 1, trace at 1; simpl.
  by rewrite replay_app, <- body_final, <- IH.
Qed.

Lemma loop_trace_ok (P : S → event V → Prop) xs s :
  (∀ x s, x ∈ xs → trace_ok P s (trace (body x s))) →
  trace_ok P s (trace (for_each xs body s)).
Proof.
  revert s. induction xs as [|x xs IH]; intros s Hbody; [done|].
  rewrite for_each_cons by done. unfold trace at 1; simpl.
  apply trace_ok_app. split.
  - apply Hbody, list_elem_of_here.
  - rewrite <- body_final. apply IH.
    intros y s' Hy. by apply Hbody, list_elem_of_further.
Qed.



(** The rounds before an element, its own round, and the rounds after. *)
Lemma for_each_middle xs x ys s :
  let before := for_each xs body s in
  let round := body x (final before) in
  let after := for_each ys body (final round) in
  for_each (xs ++ x :: ys) body s
  = (Returns (), final after, trace before ++ trace round ++ trace after).
Proof.
  cbv zeta. revert s. induction xs as [|y xs IH]; intros s.
  - rewrite app_nil_l, for_each_cons by done. done.
  - rewrite <- app_comm_cons, (for_each_cons y (xs ++ x :: ys)) by done.
    rewrite (for_each_cons y xs) by done. rewrite IH.
    unfold final, trace; simpl. by rewrite <- app_assoc.
Qed.

Hypothesis body_local : ∀ x s s',
  same_at (V := V) (key_of x) s s' → trace (body x s') = trace (body x s).
Hypothesis body_frame : ∀ x s key,
  key ≠ key_of x → same_at (V := V) key s (final (body x s)).

(** An option that no round concerns is left as it was. *)
Lemma loop_frame xs s key :
  key ∉ key_of <$> xs → same_at (V := V) key s (final (for_each xs body s)).
Proof.
  revert s. induction xs as [|x xs IH]; intros s Hkey.
  - by repeat split.
  - rewrite for_each_cons by done. unfold final at 1; simpl.
    rewrite fmap_cons in Hkey. apply not_elem_of_cons in Hkey as [Hne Hkey].
    pose proof (body_frame x s key Hne) as (Hg & Hc & Hi & Hu).
    pose proof (IH (final (body x s)) Hkey) as (Hg' & Hc' & Hi' & Hu').
    repeat split; [congruence..|]. intros v channel. by rewrite Hu', Hu.
Qed.

(** An option whose round changes nothing is left as it was by the loop. *)
Lemma loop_untouched xs s x :
  NoDup (key_of <$> xs) → x ∈ xs →
  mutations (trace (body x s)) = [] →
  same_at (V := V) (key_of x) s (final (for_each xs body s)).
Proof.
  revert s. induction xs as [|y xs IH]; intros s Hnd Hx Hquiet.
  { by apply elem_of_nil in Hx. }
  rewrite fmap_cons in Hnd. apply NoDup_cons in Hnd as [Hy Hnd].
  rewrite for_each_cons by done. unfold final at 1; simpl.
  apply elem_of_cons in Hx as [->|Hx].
  - assert (final (body y s) = s) as ->.
    { rewrite body_final. by apply replay_no_mutation. }
    by apply loop_frame.
  - assert (key_of x ≠ key_of y) as Hne.
    { intros Heq. apply Hy. rewrite <- Heq. by apply list_elem_of_fmap_2. }
    pose proof (body_frame y s _ Hne) as Hstep.
    assert (mutations (trace (body x (final (body y s)))) = []) as Hquiet'.
    { by rewrite (body_local x s). }
    pose proof (IH (final (body y s)) Hnd Hx Hquiet') as (Hg' & Hc' & Hi' & Hu').
    destruct Hstep as (Hg & Hc & Hi & Hu).
    repeat split; [congruence..|]. intros v channel. by rewrite Hu', Hu.
Qed.

(** When a round, run again where it ended, changes nothing, then so does
    every round run again where the loop ended. *)
Lemma loop_quiescent xs s x :
  (∀ x s, x ∈ xs → mutations (trace (body x (final (body x s)))) = []) →
  NoDup (key_of <$> xs) → x ∈ xs →
  mutations (trace (body x (final (for_each xs body s)))) = [].
Proof.
  revert s. induction xs as [|y xs IH]; intros s Hsettle Hnd Hx.
  { by apply elem_of_nil in Hx. }
  rewrite fmap_cons in Hnd. apply NoDup_cons in Hnd as [Hy Hnd].
  rewrite for_each_cons by done. unfold final at 1; simpl.
  apply elem_of_cons in Hx as [->|Hx].
  - rewrite (body_local y (final (body y s)));
      [apply Hsettle, list_elem_of_here|].
    by apply loop_frame.
  - apply IH; [|done|done].
    intros x' s' Hx'. by apply Hsettle, list_elem_of_further.
Qed.


End Loops.

(** ** Start-up: the path and the validation pass *)

Section Startup.
Context {A S : Type} `{!PyEq (yaml A)} `{!OptionsStore (yaml A) S}.
#[local] Set Warnings "-clear-no-such-hyp".
Implicit Types (s : S) (doc : yaml A) (items : list (string * yaml A)).
#[local] Arguments descend : simpl never.
#[local] Arguments check_writable : simpl never.

(** The loop of lines 127-133 follows the non-empty segments; it touches
    neither the store nor, unless a segment is missing, the output. *)
Lemma descend_follow (path_list : list string) doc (current_path : string) s :
  ∃ current_path' : string,
    for_fold path_list (doc, current_path) descend s
    = match follow (filter (λ key, key ≠ EmptyString) path_list) doc with
      | PathFound target => (Returns (target, current_path'), s, [])
      | PathMissing key =>
          (Exits (-1), s,
           [Echo ("Invalid path. Key " +:+ key +:+ " not found in /" +:+ current_path')])
      | PathNotMapping => (Raises "AttributeError", s, [])
      end.
Proof.
  revert doc current_path.
  induction path_list as [|key path_list IH]; intros doc current_path.
  { by exists current_path. }
  rewrite filter_cons. simpl. unfold bind at 1.
  destruct (decide (key ≠ EmptyString)) as [Hkey|Hkey].
  - unfold descend at 1. rewrite bool_decide_eq_true_2 by done.
    destruct doc as [|a|items]; simpl; [by exists current_path..|].
    destruct (dict_lookup key items) as [[|a|sub]|] eqn:Hl; simpl.
    + by exists current_path.
    + destruct (IH (YLeaf a) (current_path +:+ "/" +:+ key)) as [cp' ->].
      exists cp'. by destruct (follow _ _).
    + destruct (IH (YDict sub) (current_path +:+ "/" +:+ key)) as [cp' ->].
      exists cp'. by destruct (follow _ _).
    + by exists current_path.
  - unfold descend at 1. rewrite bool_decide_eq_false_2 by done. simpl.
    destruct (IH doc current_path) as [cp' ->].
    exists cp'. by destruct (follow _ _).
Qed.

(** The line printed for an item that may not be written. *)
Lemma check_writable_run (drifted : gset string) (item : string * yaml A) s :
  check_writable drifted item s
  = match denied s item with
    | Some reason =>
        (Exits (-1), s,
         [Echo ("Invalid option. " +:+ item.1 +:+ " cannot be updated. Reason "
                +:+ reason_value reason)])
    | None =>
        (Returns (if bool_decide (options_can_update s item.1 item.2 AUTOMATOR = Some DRIFTED)
                  then {[item.1]} ∪ drifted else drifted), s, [])
    end.
Proof.
  destruct item as [key v]. unfold check_writable, denied; simpl.
  unfold bind at 1, opt_can_update.
  destruct (options_can_update s key v AUTOMATOR) as [[|value]|]; reflexivity.
Qed.

(** The loop of lines 138-147 stops at the first item denied for another
    reason than drift, and otherwise collects the drifted keys. *)
Lemma validation_run items (drifted : gset string) s :
  for_fold items drifted check_writable s
  = match first_invalid s items with
    | Some (key, reason) =>
        (Exits (-1), s,
         [Echo ("Invalid option. " +:+ key +:+ " cannot be updated. Reason "
                +:+ reason_value reason)])
    | None => (Returns (drift_set s items ∪ drifted), s, [])
    end.
Proof.
  revert drifted. induction items as [|item items IH]; intros drifted.
  { simpl. unfold ret, drift_set. simpl. f_equal. f_equal. f_equal. set_solver. }
  simpl. unfold bind. rewrite check_writable_run.
  destruct (denied s item) as [reason|] eqn:Hden; [done|].
  rewrite IH. destruct (first_invalid s items) as [[key reason]|]; [done|].
  simpl. f_equal. f_equal. f_equal.
  unfold drift_set. rewrite filter_cons.
  case_bool_decide as Hd.
  - rewrite decide_True by done. rewrite fmap_cons. simpl. set_solver.
  - rewrite decide_False by done. done.
Qed.

Lemma elem_of_drift_set s items key :
  key ∈ drift_set s items
  ↔ ∃ v, (key, v) ∈ items ∧ options_can_update s key v AUTOMATOR = Some DRIFTED.
Proof.
  unfold drift_set. rewrite elem_of_list_to_set, list_elem_of_fmap. split.
  - intros ([k v] & -> & Hin). apply list_elem_of_filter in Hin as [Hd Hin].
    by exists v.
  - intros (v & Hin & Hd). exists (key, v). split; [done|].
    by apply list_elem_of_filter.
Qed.

Lemma first_invalid_None s items :
  first_invalid s items = None
  ↔ ∀ key v, (key, v) ∈ items →
      options_can_update s key v AUTOMATOR = None
      ∨ options_can_update s key v AUTOMATOR = Some DRIFTED.
Proof.
  induction items as [|[k w] items IH]; simpl.
  { split; [|done]. intros _ key v Hin. by apply elem_of_nil in Hin. }
  unfold denied; simpl. split.
  - intros Hfirst key v Hin.
    destruct (options_can_update s k w AUTOMATOR) as [reason|] eqn:Hk.
    + case_bool_decide as Hr; [|done]. subst reason.
      apply elem_of_cons in Hin as [[= -> ->]|Hin]; [by right|].
      by apply IH.
    + apply elem_of_cons in Hin as [[= -> ->]|Hin]; [by left|].
      by apply IH.
  - intros Hall.
    destruct (Hall k w (list_elem_of_here _ _)) as [->| ->].
    + apply IH. intros key v Hin. by apply Hall, list_elem_of_further.
    + rewrite bool_decide_eq_true_2 by done.
      apply IH. intros key v Hin. by apply Hall, list_elem_of_further.
Qed.

Lemma first_invalid_Some s items key v reason :
  (key, v) ∈ items →
  options_can_update s key v AUTOMATOR = Some reason → reason ≠ DRIFTED →
  is_Some (first_invalid s items).
Proof.
  intros Hin Hr Hne.
  destruct (first_invalid s items) as [?|] eqn:Hfirst; [eauto|].
  destruct (proj1 (first_invalid_None s items) Hfirst key v Hin); congruence.
Qed.

(** The whole of the group callback, as a function of where the path leads
    and of what the store answers about the items found there. *)
Lemma configoptions_run doc (path : string) s :
  ∃ current_path : string, ∀ dry_run : bool,
    configoptions dry_run doc path s
    = match follow (segments path) doc with
      | PathFound (YDict items) =>
          match first_invalid s items with
          | Some (key, reason) =>
              (Exits (-1), s,
               [Echo ("Invalid option. " +:+ key +:+ " cannot be updated. Reason "
                      +:+ reason_value reason)])
          | None =>
              (Returns {| ctx_dry_run := dry_run;
                          ctx_options_to_update := items;
                          ctx_drifted_options := drift_set s items |}, s, [])
          end
      | PathFound _ => (Raises "AttributeError", s, [])
      | PathMissing key =>
          (Exits (-1), s,
           [Echo ("Invalid path. Key " +:+ key +:+ " not found in /" +:+ current_path)])
      | PathNotMapping => (Raises "AttributeError", s, [])
      end.
Proof.
  unfold configoptions, segments.
  destruct (descend_follow (split_on "/"%char path ++ ["options"]) doc EmptyString s) as [cp Hwalk].
  exists cp. intros dry_run. unfold bind at 1. rewrite Hwalk.
  destruct (follow _ doc) as [[|a|items]|key|]; simpl; [done|done| |done|done].
  unfold bind. rewrite validation_run.
  destruct (first_invalid s items) as [[key reason]|]; [done|].
  simpl. f_equal. f_equal. f_equal. f_equal. set_solver.
Qed.

End Startup.

(** ** The two workflows *)

Section Workflows.
Context {A S : Type} `{!PyEq (yaml A)} `{!OptionsStore (yaml A) S}.
Implicit Types (s : S) (key name : string) (v : yaml A) (drifted : gset string).
Implicit Types (ctx : ctx_obj (A := A)) (items : list (string * yaml A)).

Lemma patch_item_result ctx item s : result (patch_item ctx item s) = Returns ().
Proof. destruct item as [key v]. apply attempt_update_result. Qed.

Lemma patch_item_final ctx item s :
  final (patch_item ctx item s) = replay (trace (patch_item ctx item s)) s.
Proof. destruct item as [key v]. apply attempt_update_final. Qed.

Lemma patch_item_local ctx item s s' :
  same_at (V := yaml A) item.1 s s' →
  trace (patch_item ctx item s') = trace (patch_item ctx item s).
Proof. destruct item as [key v]. apply attempt_update_trace_same_at. Qed.

(** [patch] is its banner, then its loop. *)
Lemma patch_run ctx s :
  patch ctx s
  = (Returns (),
     final (for_each (ctx_options_to_update ctx) (patch_item ctx) s),
     (if ctx_dry_run ctx then [Echo DRY_RUN_BANNER] else [])
     ++ trace (for_each (ctx_options_to_update ctx) (patch_item ctx) s)).
Proof.
  unfold patch. pose proof (for_each_returns (ctx_options_to_update ctx)
    (patch_item ctx) s (patch_item_result ctx)) as Hret.
  rewrite (triple_eta (for_each _ _ s)), Hret.
  unfold bind, when, echo, ret. destruct (ctx_dry_run ctx); simpl.
  - by rewrite (triple_eta (for_each _ _ s)), Hret.
  - by rewrite (triple_eta (for_each _ _ s)), Hret.
Qed.

(** [sync] is its banner, then its loop over the eligible options. *)
Lemma sync_run ctx s :
  sync ctx s
  = (Returns (),
     final (for_each (options_filter s FLAG_AUTOMATOR_MODIFIABLE) (sync_option ctx) s),
     (if ctx_dry_run ctx then [Echo DRY_RUN_BANNER] else [])
     ++ trace (for_each (options_filter s FLAG_AUTOMATOR_MODIFIABLE) (sync_option ctx) s)).
Proof.
  unfold sync. pose proof (for_each_returns (options_filter s FLAG_AUTOMATOR_MODIFIABLE)
    (sync_option ctx) s (sync_option_result ctx)) as Hret.
  unfold bind, when, echo, ret, opt_filter. destruct (ctx_dry_run ctx); simpl.
  - by rewrite (triple_eta (for_each _ _ s)), Hret.
  - by rewrite (triple_eta (for_each _ _ s)), Hret.
Qed.

(** *** What the rounds may do *)

Lemma patch_item_permitted ctx item eligible s :
  item ∈ ctx_options_to_update ctx →
  trace_ok (permitted (ctx_options_to_update ctx) eligible) s (trace (patch_item ctx item s)).
Proof.
  intros Hin. destruct item as [key v]. unfold patch_item.
  rewrite attempt_update_reconcile. unfold trace; simpl.
  apply trace_ok_app. split.
  - destruct (action_writes _ && negb _); simpl; [|done].
    split; [|done]. by exists key, v.
  - by destruct (decision _ _ _ _).
Qed.

Lemma sync_option_permitted ctx name eligible s :
  name ∈ eligible →
  trace_ok (permitted (ctx_options_to_update ctx) eligible) s (trace (sync_option ctx name s)).
Proof.
  intros Hel.
  destruct (dict_contains name (ctx_options_to_update ctx)) eqn:Hc.
  - apply dict_contains_lookup in Hc as [v Hv].
    rewrite (sync_option_present _ _ v) by done.
    apply (patch_item_permitted ctx (name, v)). by apply dict_lookup_elem_of.
  - rewrite sync_option_absent_run by done.
    destruct (options_isset s name) eqn:Hset; [|done].
    case_bool_decide as Hchan; [|done].
    destruct (ctx_dry_run ctx); simpl; [done|].
    split; [|done]. by exists name.
Qed.

Lemma patch_permitted ctx eligible s :
  trace_ok (permitted (ctx_options_to_update ctx) eligible) s (trace (patch ctx s)).
Proof.
  rewrite patch_run. unfold trace at 1; simpl.
  apply trace_ok_app. split; [by destruct (ctx_dry_run ctx)|].
  rewrite replay_no_mutation by (by destruct (ctx_dry_run ctx)).
  apply loop_trace_ok.
  - apply patch_item_result.
  - apply patch_item_final.
  - intros item s' Hin. by apply patch_item_permitted.
Qed.

Lemma sync_permitted ctx s :
  trace_ok (permitted (ctx_options_to_update ctx)
                      (options_filter s FLAG_AUTOMATOR_MODIFIABLE)) s
           (trace (sync ctx s)).
Proof.
  rewrite sync_run. unfold trace at 1; simpl.
  apply trace_ok_app. split; [by destruct (ctx_dry_run ctx)|].
  rewrite replay_no_mutation by (by destruct (ctx_dry_run ctx)).
  apply loop_trace_ok.
  - apply sync_option_result.
  - apply sync_option_final.
  - intros name s' Hin. by apply sync_option_permitted.
Qed.

Lemma patch_final ctx s : final (patch ctx s) = replay (trace (patch ctx s)) s.
Proof.
  rewrite patch_run. unfold final at 1, trace at 1; simpl.
  rewrite replay_app, (replay_no_mutation _ s) by (by destruct (ctx_dry_run ctx)).
  apply loop_final; [apply patch_item_result | apply patch_item_final].
Qed.

Lemma sync_final ctx s : final (sync ctx s) = replay (trace (sync ctx s)) s.
Proof.
  rewrite sync_run. unfold final at 1, trace at 1; simpl.
  rewrite replay_app, (replay_no_mutation _ s) by (by destruct (ctx_dry_run ctx)).
  apply loop_final; [apply sync_option_result | apply sync_option_final].
Qed.

(** A trace of permitted events with no eligible option has no deletion. *)
Lemma permitted_no_delete items s (t : list (event (yaml A))) :
  trace_ok (permitted items []) s t →
  Forall (λ e, ∀ key, e ≠ OptionsDelete key) t.
Proof.
  revert s. induction t as [|e t IH]; intros s; simpl; [constructor|].
  intros [He Ht]. constructor; [|by eapply IH].
  intros key ->. destruct He as (key' & _ & Hin & _). by apply elem_of_nil in Hin.
Qed.

End Workflows.

(** ** Workflows over a store that obeys the laws *)

(** The laws of [OptionsStoreLaws] give those of [OptionsStoreFrame], and
    that every value reads back. *)
#[global] Instance laws_frame {V S : Type} `{!PyEq V} `{!OptionsStore V S}
  `{!OptionsStoreLaws V S} : OptionsStoreFrame V S.
Proof.
  split.
  - apply channel_set_eq.
  - apply isset_delete_eq.
  - apply set_frame.
  - apply delete_frame.
  - apply filter_set.
  - apply filter_delete.
  - apply filter_NoDup.
Qed.

Lemma laws_reads_back {V S : Type} `{!PyEq V} `{!OptionsStore V S}
  `{!OptionsStoreLaws V S} (v : V) : reads_back (S := S) v.
Proof. intros key coerce channel s. apply get_set_eq. Qed.

Section Lawful.
Context {A S : Type} `{!PyEq (yaml A)} `{!OptionsStore (yaml A) S}.
Context `{!OptionsStoreFrame (yaml A) S}.
Implicit Types (s : S) (key name : string) (v : yaml A) (drifted : gset string).
Implicit Types (ctx : ctx_obj (A := A)) (items : list (string * yaml A)).

Lemma attempt_update_frame key key' v drifted (dry_run : bool) s :
  key' ≠ key →
  same_at (V := yaml A) key' s (final (_attempt_update key v drifted dry_run s)).
Proof.
  intros Hne. rewrite attempt_update_reconcile. unfold final; simpl.
  destruct (action_writes _ && negb dry_run).
  - by apply frame_set.
  - apply same_at_refl.
Qed.

(** After a real round for a key whose value reads back, a further round
    for it writes nothing. *)
Lemma attempt_update_settles key v drifted (dry_run : bool) s :
  reads_back (S := S) v →
  mutations (trace (_attempt_update key v drifted dry_run
                      (final (_attempt_update key v drifted false s)))) = [].
Proof.
  intros Hback. rewrite attempt_update_mutations.
  rewrite (attempt_update_reconcile key v drifted false s). unfold final; simpl.
  rewrite andb_true_r.
  destruct (action_writes (decision key v drifted s)) eqn:Hw.
  - unfold decision in *. rewrite Hback, frame_channel_set.
    destruct (bool_decide (key ∈ drifted)); [done|]. by simpl.
  - by rewrite Hw.
Qed.

Lemma patch_item_frame ctx item key s :
  key ≠ item.1 → same_at (V := yaml A) key s (final (patch_item ctx item s)).
Proof. destruct item as [k v]. apply attempt_update_frame. Qed.

Lemma patch_item_settles ctx item s :
  ctx_dry_run ctx = false →
  reads_back (S := S) item.2 →
  mutations (trace (patch_item ctx item (final (patch_item ctx item s)))) = [].
Proof.
  intros Hdry Hback. destruct item as [k v]. unfold patch_item. rewrite Hdry.
  by apply attempt_update_settles.
Qed.

Lemma sync_option_frame ctx name key s :
  key ≠ name → same_at (V := yaml A) key s (final (sync_option ctx name s)).
Proof.
  intros Hne.
  destruct (dict_contains name (ctx_options_to_update ctx)) eqn:Hc.
  - apply dict_contains_lookup in Hc as [v Hv].
    rewrite (sync_option_present _ _ v) by done. by apply attempt_update_frame.
  - rewrite sync_option_absent_run by done.
    destruct (options_isset s name); [|apply same_at_refl].
    case_bool_decide; [|apply same_at_refl].
    destruct (ctx_dry_run ctx); [apply same_at_refl|].
    by apply frame_delete.
Qed.

Lemma sync_option_settles ctx name s :
  ctx_dry_run ctx = false →
  Forall (λ item, reads_back (S := S) item.2) (ctx_options_to_update ctx) →
  mutations (trace (sync_option ctx name (final (sync_option ctx name s)))) = [].
Proof.
  intros Hdry Hback.
  destruct (dict_contains name (ctx_options_to_update ctx)) eqn:Hc.
  - apply dict_contains_lookup in Hc as [v Hv].
    rewrite !(sync_option_present _ _ v) by done. rewrite Hdry.
    apply attempt_update_settles.
    apply dict_lookup_elem_of in Hv.
    by apply (proj1 (Forall_forall _ _) Hback (name, v)).
  - rewrite (sync_option_absent_run ctx name s) by done. rewrite Hdry.
    destruct (options_isset s name) eqn:Hset.
    + case_bool_decide as Hchan; unfold final; simpl.
      * rewrite sync_option_absent_run by done.
        by rewrite frame_isset_delete.
      * rewrite sync_option_absent_run by done.
        rewrite Hset. by rewrite bool_decide_eq_false_2.
    + unfold final; simpl. rewrite sync_option_absent_run by done. by rewrite Hset.
Qed.


(** *** A whole invocation *)

Lemma main_run sub (doc : yaml A) (path : string) s :
  ∃ current_path : string, ∀ dry_run : bool,
    main sub dry_run doc path s
    = match follow (segments path) doc with
      | PathFound (YDict items) =>
          match first_invalid s items with
          | Some (key, reason) =>
              (Exits (-1), s,
               [Echo ("Invalid option. " +:+ key +:+ " cannot be updated. Reason "
                      +:+ reason_value reason)])
          | None =>
              run_subcommand sub {| ctx_dry_run := dry_run;
                                    ctx_options_to_update := items;
                                    ctx_drifted_options := drift_set s items |} s
          end
      | PathFound _ => (Raises "AttributeError", s, [])
      | PathMissing key =>
          (Exits (-1), s,
           [Echo ("Invalid path. Key " +:+ key +:+ " not found in /" +:+ current_path)])
      | PathNotMapping => (Raises "AttributeError", s, [])
      end.
Proof.
  destruct (configoptions_run doc path s) as [cp Hrun].
  exists cp. intros dry_run. unfold main, bind. rewrite Hrun.
  destruct (follow _ doc) as [[|a|items]|key|]; [done|done| |done|done].
  destruct (first_invalid s items) as [[key reason]|]; [done|].
  by destruct (run_subcommand _ _ s) as [[o s2] t2].
Qed.

(** *** A second run *)






(** *** A dry run prints what the real run prints *)





End Lawful.

(** ** The properties of the workflows *)

Section WorkflowProperties.
Context {A S : Type} `{!PyEq (yaml A)} `{!OptionsStore (yaml A) S}.
Implicit Types (s : S) (key name : string) (v : yaml A) (drifted : gset string).
Implicit Types (ctx : ctx_obj (A := A)) (items : list (string * yaml A)).
Implicit Types (doc : yaml A) (path : string) (sub : subcommand).

Lemma permitted_weaken items (eligible : list string) s (t : list (event (yaml A))) :
  trace_ok (permitted items []) s t → trace_ok (permitted items eligible) s t.
Proof.
  apply trace_ok_weaken. intros s' [msg|k v c ch|k]; simpl; [done|done|].
  intros (key & _ & Hin & _). by apply elem_of_nil in Hin.
Qed.

(** Whatever an invocation does to the store is logged, and is permitted:
    for [patch] with no option eligible for deletion, for [sync] with the
    options the registry enumerates. *)
Lemma main_permitted sub (dry_run : bool) doc path s :
  trace_ok (permitted (options_at path doc)
              (match sub with
               | Patch => []
               | Sync => options_filter s FLAG_AUTOMATOR_MODIFIABLE
               end)) s
           (trace (main sub dry_run doc path s))
  ∧ final (main sub dry_run doc path s) = replay (trace (main sub dry_run doc path s)) s.
Proof.
  destruct (main_run sub doc path s) as [cp Hrun]. rewrite (Hrun dry_run).
  unfold options_at.
  destruct (follow _ doc) as [[|a|items]|key|]; [done|done| |done|done].
  destruct (first_invalid s items) as [[key reason]|]; [done|].
  set (ctx := {| ctx_dry_run := dry_run; ctx_options_to_update := items;
                 ctx_drifted_options := drift_set s items |}).
  destruct sub; unfold run_subcommand.
  - split; [apply (patch_permitted ctx []) | apply patch_final].
  - split; [apply (sync_permitted ctx) | apply sync_final].
Qed.

(** What start-up validation does guarantee.  The group callback never
    touches the store.  When the mapping reached so far has no value (or
    [None]) under a segment of the path, or when [can_update] denies some key
    of the input for another reason than drift, the invocation exits with
    code -1, the store is as it was and no mutating call was made.  When
    every denial is for drift, the callback returns, the denied keys are
    exactly the drift set, and the run goes on to the subcommand.  Nothing is
    said here of a segment looked up in a value that is not a mapping. *)
Theorem startup_validation_all_or_nothing sub (dry_run : bool) doc path s :
  (final (configoptions dry_run doc path s) = s
   ∧ mutations (trace (configoptions dry_run doc path s)) = [])
  ∧ (∀ key, follow (segments path) doc = PathMissing key →
       result (main sub dry_run doc path s) = Exits (-1)
       ∧ final (main sub dry_run doc path s) = s
       ∧ mutations (trace (main sub dry_run doc path s)) = [])
  ∧ (∀ items key v reason,
       follow (segments path) doc = PathFound (YDict items) →
       (key, v) ∈ items →
       options_can_update s key v AUTOMATOR = Some reason → reason ≠ DRIFTED →
       result (main sub dry_run doc path s) = Exits (-1)
       ∧ final (main sub dry_run doc path s) = s
       ∧ mutations (trace (main sub dry_run doc path s)) = [])
  ∧ (∀ items,
       follow (segments path) doc = PathFound (YDict items) →
       (∀ key v, (key, v) ∈ items →
          options_can_update s key v AUTOMATOR = None
          ∨ options_can_update s key v AUTOMATOR = Some DRIFTED) →
       ∃ drifted_options,
         configoptions dry_run doc path s
         = (Returns {| ctx_dry_run := dry_run;
                       ctx_options_to_update := items;
                       ctx_drifted_options := drifted_options |}, s, [])
         ∧ (∀ key, key ∈ drifted_options
                   ↔ ∃ v, (key, v) ∈ items
                          ∧ options_can_update s key v AUTOMATOR = Some DRIFTED)
         ∧ main sub dry_run doc path s
           = run_subcommand sub {| ctx_dry_run := dry_run;
                                   ctx_options_to_update := items;
                                   ctx_drifted_options := drifted_options |} s).
Proof.
  destruct (configoptions_run doc path s) as [cp Hconf].
  destruct (main_run sub doc path s) as [cp' Hmain].
  rewrite (Hconf dry_run), (Hmain dry_run).
  split; [|split; [|split]].
  - destruct (follow _ doc) as [[|a|items]|key|]; [done|done| |done|done].
    by destruct (first_invalid s items) as [[key reason]|].
  - by intros key ->.
  - intros items key v reason -> Hin Hdenied Hreason.
    destruct (first_invalid_Some s items key v reason Hin Hdenied Hreason)
      as [[key' reason'] ->]. done.
  - intros items -> Hall. apply first_invalid_None in Hall. rewrite Hall.
    exists (drift_set s items). split; [done|]. split; [|done].
    intros key. apply elem_of_drift_set.
Qed.

(** C9. [patch] never deletes.  Whatever [patch] does to the store is a
    logged call; each logged call that mutates is the reconciler's write
    [options.set(key, value, coerce=False, channel=AUTOMATOR)] for an item
    [key, value] of the input; no [options.delete] is logged; and the same
    holds of a whole [patch] invocation, start-up included. *)
Theorem patch_never_deletes ctx (dry_run : bool) doc path s :
  (final (patch ctx s) = replay (trace (patch ctx s)) s
   ∧ trace_ok (permitted (ctx_options_to_update ctx) []) s (trace (patch ctx s))
   ∧ Forall (λ e, ∀ key, e ≠ OptionsDelete key) (trace (patch ctx s)))
  ∧ (final (main Patch dry_run doc path s)
     = replay (trace (main Patch dry_run doc path s)) s
     ∧ trace_ok (permitted (options_at path doc) []) s
                (trace (main Patch dry_run doc path s))
     ∧ Forall (λ e, ∀ key, e ≠ OptionsDelete key)
              (trace (main Patch dry_run doc path s))).
Proof.
  split.
  - split; [apply patch_final|]. split; [apply patch_permitted|].
    eapply permitted_no_delete, patch_permitted.
  - destruct (main_permitted Patch dry_run doc path s) as [Hok Hfinal].
    split; [done|]. split; [done|]. by eapply permitted_no_delete.
Qed.

(** C10. Every mutation of either workflow stamps the automation channel.
    In the trace of an invocation, and in the trace of each workflow run on
    any context, every mutating call is either
    [options.set(key, value, coerce=False, channel=AUTOMATOR)] for an item
    [key, value] of the input, or an [options.delete(key)] for an option
    that the registry enumerates, that the input does not mention, and that
    is set and owned by [AUTOMATOR] in the store where the deletion happens;
    [patch] logs no deletion at all; and the store changes by logged calls
    only. *)
Theorem mutations_stamp_automator sub (dry_run : bool) doc path ctx s :
  (trace_ok (permitted (options_at path doc)
                       (options_filter s FLAG_AUTOMATOR_MODIFIABLE)) s
            (trace (main sub dry_run doc path s))
   ∧ final (main sub dry_run doc path s)
     = replay (trace (main sub dry_run doc path s)) s)
  ∧ (trace_ok (permitted (ctx_options_to_update ctx) []) s (trace (patch ctx s))
     ∧ final (patch ctx s) = replay (trace (patch ctx s)) s)
  ∧ (trace_ok (permitted (ctx_options_to_update ctx)
                         (options_filter s FLAG_AUTOMATOR_MODIFIABLE)) s
              (trace (sync ctx s))
     ∧ final (sync ctx s) = replay (trace (sync ctx s)) s).
Proof.
  split; [|split].
  - destruct (main_permitted sub dry_run doc path s) as [Hok Hfinal].
    split; [|done]. destruct sub; [by apply permitted_weaken | done].
  - split; [apply patch_permitted | apply patch_final].
  - split; [apply sync_permitted | apply sync_final].
Qed.

End WorkflowProperties.

(** ** Dry runs and second runs *)

Section RunsCompared.
Context {A S : Type} `{!PyEq (yaml A)} `{!OptionsStore (yaml A) S}.
Implicit Types (s : S) (key name : string) (v : yaml A) (drifted : gset string).
Implicit Types (ctx : ctx_obj (A := A)) (items : list (string * yaml A)).
Implicit Types (doc : yaml A) (path : string) (sub : subcommand).




Context `{!OptionsStoreLaws (yaml A) S}.


End RunsCompared.

(** ** Second runs *)

Section Idempotence.
Context {A S : Type} `{!PyEq (yaml A)} `{!OptionsStore (yaml A) S}.
Context `{!OptionsStoreFrame (yaml A) S}.
Implicit Types (s : S) (key name : string) (v : yaml A) (drifted : gset string).
Implicit Types (ctx : ctx_obj (A := A)) (items : list (string * yaml A)).
Implicit Types (doc : yaml A) (path : string) (sub : subcommand).


End Idempotence.

(** ** [sync] and the options the input does not mention *)

Section SyncAbsent.
Context {A S : Type} `{!PyEq (yaml A)} `{!OptionsStore (yaml A) S}.
Implicit Types (s : S) (name : string) (ctx : ctx_obj (A := A)).

(** Each enumerated option has its own round in [sync], between the rounds
    of the options enumerated before it and after it. *)
Lemma sync_round ctx s (pre post : list string) name :
  options_filter s FLAG_AUTOMATOR_MODIFIABLE = pre ++ name :: post →
  let before := for_each pre (sync_option ctx) s in
  let round := sync_option ctx name (final before) in
  let after := for_each post (sync_option ctx) (final round) in
  sync ctx s
  = (Returns (), final after,
     (if ctx_dry_run ctx then [Echo DRY_RUN_BANNER] else [])
     ++ trace before ++ trace round ++ trace after).
Proof.
  intros Hel. cbv zeta. rewrite sync_run, Hel.
  by rewrite (for_each_middle _ (sync_option_result ctx)).
Qed.

(** C6. In [sync], an eligible option that the input does not mention has
    its own round, run in the store that the rounds of the options
    enumerated before it have left.  When the option is then set and owned
    by the automation channel, the round deletes it by one
    [options.delete(name)] unless the run is dry, and prints the unset
    message; when it is set and owned otherwise (by another channel, or by
    none), the round leaves the store as it was and prints the drift message;
    when it is not set, the round does nothing and prints nothing. *)
Theorem sync_absent_option ctx s (pre post : list string) name :
  options_filter s FLAG_AUTOMATOR_MODIFIABLE = pre ++ name :: post →
  dict_contains name (ctx_options_to_update ctx) = false →
  let before := for_each pre (sync_option ctx) s in
  let round := sync_option ctx name (final before) in
  let after := for_each post (sync_option ctx) (final round) in
  (trace (sync ctx s)
   = (if ctx_dry_run ctx then [Echo DRY_RUN_BANNER] else [])
     ++ trace before ++ trace round ++ trace after
   ∧ final (sync ctx s) = final after)
  ∧ (options_isset (final before) name = true →
     options_get_last_update_channel (final before) name = Some AUTOMATOR →
     round = (Returns (),
              if ctx_dry_run ctx then final before else options_delete name (final before),
              (if ctx_dry_run ctx then [] else [OptionsDelete name])
              ++ [Echo (UNSET_MSG name)]))
  ∧ (options_isset (final before) name = true →
     options_get_last_update_channel (final before) name ≠ Some AUTOMATOR →
     round = (Returns (), final before, [Echo (DRIFT_MSG name)]))
  ∧ (options_isset (final before) name = false →
     round = (Returns (), final before, [])).
Proof.
  intros Hel Habsent before round after.
  split; [by rewrite (sync_round ctx s pre post name Hel)|].
  subst round. rewrite sync_option_absent_run by done.
  split; [|split].
  - intros -> Hchan. by rewrite bool_decide_eq_true_2.
  - intros -> Hchan. by rewrite bool_decide_eq_false_2.
  - by intros ->.
Qed.

Context `{!OptionsStoreLaws (yaml A) S}.

(** Over a store that obeys the laws the other rounds leave the option
    alone: its round finds it as the store held it at the start, what the
    round leaves of it is what the run leaves, and an option that was set and
    owned by the automation channel is no longer set after a real run. *)
Lemma sync_absent_option_untouched ctx s (pre post : list string) name :
  options_filter s FLAG_AUTOMATOR_MODIFIABLE = pre ++ name :: post →
  dict_contains name (ctx_options_to_update ctx) = false →
  let before := for_each pre (sync_option ctx) s in
  let round := sync_option ctx name (final before) in
  same_at (V := yaml A) name s (final before)
  ∧ same_at (V := yaml A) name (final round) (final (sync ctx s))
  ∧ (ctx_dry_run ctx = false →
     options_isset s name = true →
     options_get_last_update_channel s name = Some AUTOMATOR →
     options_isset (final (sync ctx s)) name = false).
Proof.
  intros Hel Habsent before round.
  pose proof (filter_NoDup (V := yaml A) s FLAG_AUTOMATOR_MODIFIABLE) as Hnd.
  rewrite Hel in Hnd. apply NoDup_app in Hnd as (_ & Hpre & Hnd).
  apply NoDup_cons in Hnd as [Hpost _].
  assert (same_at (V := yaml A) name s (final before)) as Hbefore.
  { apply (loop_frame _ id (sync_option_result ctx)
             (λ name s key, sync_option_frame ctx name key s)).
    rewrite list_fmap_id. intros Hin. by apply (Hpre name), list_elem_of_here. }
  assert (same_at (V := yaml A) name (final round) (final (sync ctx s))) as Hafter.
  { rewrite (sync_round ctx s pre post name Hel). unfold final at 2; simpl.
    apply (loop_frame _ id (sync_option_result ctx)
             (λ name s key, sync_option_frame ctx name key s)).
    by rewrite list_fmap_id. }
  split; [done|]. split; [done|].
  intros Hdry Hset Hchan.
  destruct Hbefore as (_ & Hchan' & Hset' & _).
  destruct Hafter as (_ & _ & -> & _).
  subst round. rewrite sync_option_absent_run by done.
  rewrite Hset', Hset, Hchan', Hchan, Hdry.
  rewrite bool_decide_eq_true_2 by done. unfold final at 1; simpl.
  apply isset_delete_eq.
Qed.

End SyncAbsent.

(** ** The reference store *)

Lemma yaml_eqb_refl (a : yaml Z) : yaml_eqb a a = true.
Proof.
  revert a. fix IH 1. intros [|x|items]; simpl.
  - done.
  - by apply bool_decide_eq_true_2.
  - induction items as [|[k v] items IHitems]; [done|].
    rewrite bool_decide_eq_true_2 by done. rewrite IH. simpl. apply IHitems.
Qed.

(** The reference store obeys the laws. *)
#[global] Instance store_laws : OptionsStoreLaws (yaml Z) store.
Proof.
  split.
  - intros key v coerce channel s. simpl. rewrite lookup_insert_eq. simpl.
    apply yaml_eqb_refl.
  - intros key v coerce channel s. simpl. apply lookup_insert_eq.
  - intros key s. simpl. rewrite lookup_delete_eq.
    apply bool_decide_eq_false_2. by intros [? ?].
  - intros key key' v coerce channel s Hne. unfold same_at; simpl.
    by rewrite !lookup_insert_ne.
  - intros key key' s Hne. unfold same_at; simpl.
    by rewrite !lookup_delete_ne.
  - done.
  - done.
  - intros s flag. simpl. case_bool_decide; [apply NoDup_remove_dups | constructor].
Qed.

(** *** The end-to-end scenario of the spec *)

(** [sync]: [a] is written with 1 and the automation channel and its update
    line is printed; [b] gives no line; [c], which the input does not mention
    and another channel owns, gives a drift line and is left as it was. *)
Example scenario_sync :
  let run := main Sync false scenario_document EmptyString scenario_store in
  result run = Returns ()
  ∧ trace run = [OptionsSet "a" (YLeaf 1%Z) false AUTOMATOR;
                 Echo "[UPDATE] Option a updated.";
                 Echo "[DRIFT] Option c drifted and cannot be updated."]
  ∧ options_get (final run) "a" = YLeaf 1%Z
  ∧ options_get_last_update_channel (final run) "a" = Some AUTOMATOR
  ∧ options_get (final run) "c" = YLeaf 5%Z
  ∧ options_get_last_update_channel (final run) "c" = Some (OtherChannel "cli").
Proof. vm_compute. by repeat split. Qed.

(** [patch] with the same input only processes [a] and [b]. *)
Example scenario_patch :
  trace (main Patch false scenario_document EmptyString scenario_store)
  = [OptionsSet "a" (YLeaf 1%Z) false AUTOMATOR; Echo "[UPDATE] Option a updated."].
Proof. by vm_compute. Qed.

(** A path that leads nowhere, and a read-only key: exit code -1, nothing
    written. *)
Example scenario_invalid_path :
  let run := main Sync false scenario_document "/object/data" scenario_store in
  result run = Exits (-1)
  ∧ trace run = [Echo "Invalid path. Key object not found in /"].
Proof. by vm_compute. Qed.

Example scenario_invalid_option :
  let run := main Patch false scenario_document EmptyString guarded_store in
  result run = Exits (-1)
  ∧ trace run = [Echo "Invalid option. b cannot be updated. Reason readonly"].
Proof. by vm_compute. Qed.

(** *** The properties at work on the reference store *)


Lemma attempt_update_drifted_witness :
  ("c" ∈ ({["c"]} : gset string))
  ∧ (_attempt_update "c" (YLeaf 9%Z) {["c"]} true scenario_store
     = (Returns (), scenario_store, [Echo (DRIFT_MSG "c")])
     ∧ mutations (trace (_attempt_update "c" (YLeaf 9%Z) {["c"]} true scenario_store)) = []).
Proof.
  assert ("c" ∈ ({["c"]} : gset string)) as Hin by (by apply elem_of_singleton).
  split; [done|]. by apply attempt_update_drifted.
Defined.

Lemma attempt_update_stamps_unset_channel_witness :
  ("a" ∉ (∅ : gset string))
  ∧ py_eq (options_get seeded_store "a") (YLeaf 1%Z) = true
  ∧ options_get_last_update_channel seeded_store "a" = None
  ∧ _attempt_update "a" (YLeaf 1%Z) ∅ false seeded_store
    = (Returns (),
       options_set "a" (YLeaf 1%Z) false AUTOMATOR seeded_store,
       [OptionsSet "a" (YLeaf 1%Z) false AUTOMATOR] ++ [Echo (UPDATE_MSG "a")]).
Proof.
  assert ("a" ∉ (∅ : gset string)) as Hin by apply not_elem_of_empty.
  assert (py_eq (options_get seeded_store "a") (YLeaf 1%Z) = true) as Heq
    by (by vm_compute).
  assert (options_get_last_update_channel seeded_store "a" = None) as Hchan
    by (by vm_compute).
  refine (conj Hin (conj Heq (conj Hchan _))).
  exact (attempt_update_stamps_unset_channel "a" (YLeaf 1%Z) ∅ false seeded_store
           Hin Heq Hchan).
Defined.

Lemma attempt_update_channel_only_witness :
  ("c" ∉ (∅ : gset string))
  ∧ py_eq (options_get scenario_store "c") (YLeaf 5%Z) = true
  ∧ options_get_last_update_channel scenario_store "c" = Some (OtherChannel "cli")
  ∧ OtherChannel "cli" ≠ AUTOMATOR
  ∧ _attempt_update "c" (YLeaf 5%Z) ∅ false scenario_store
    = (Returns (),
       options_set "c" (YLeaf 5%Z) false AUTOMATOR scenario_store,
       [OptionsSet "c" (YLeaf 5%Z) false AUTOMATOR] ++ [Echo (CHANNEL_UPDATE_MSG "c")]).
Proof.
  assert ("c" ∉ (∅ : gset string)) as Hin by apply not_elem_of_empty.
  assert (py_eq (options_get scenario_store "c") (YLeaf 5%Z) = true) as Heq
    by (by vm_compute).
  assert (options_get_last_update_channel scenario_store "c"
          = Some (OtherChannel "cli")) as Hchan by (by vm_compute).
  assert (OtherChannel "cli" ≠ AUTOMATOR) as Hne by done.
  refine (conj Hin (conj Heq (conj Hchan (conj Hne _)))).
  exact (attempt_update_channel_only "c" (YLeaf 5%Z) ∅ false scenario_store
           (OtherChannel "cli") Hin Heq Hchan Hne).
Defined.

Lemma attempt_update_writes_changed_value_witness :
  ("a" ∉ (∅ : gset string))
  ∧ py_eq (options_get scenario_store "a") (YLeaf 1%Z) = false
  ∧ _attempt_update "a" (YLeaf 1%Z) ∅ false scenario_store
    = (Returns (),
       options_set "a" (YLeaf 1%Z) false AUTOMATOR scenario_store,
       [OptionsSet "a" (YLeaf 1%Z) false AUTOMATOR] ++ [Echo (UPDATE_MSG "a")]).
Proof.
  assert ("a" ∉ (∅ : gset string)) as Hin by apply not_elem_of_empty.
  assert (py_eq (options_get scenario_store "a") (YLeaf 1%Z) = false) as Hne
    by (by vm_compute).
  refine (conj Hin (conj Hne _)).
  exact (attempt_update_writes_changed_value "a" (YLeaf 1%Z) ∅ false scenario_store
           Hin Hne).
Defined.

(** The plain store of values with a float obeys the frame laws. *)
#[global] Instance float_store_frame : OptionsStoreFrame (yaml scalar) float_store.
Proof.
  split.
  - intros key v coerce channel s. simpl. apply lookup_insert_eq.
  - intros key s. simpl. rewrite lookup_delete_eq.
    apply bool_decide_eq_false_2. by intros [? ?].
  - intros key key' v coerce channel s Hne. unfold same_at; simpl.
    by rewrite !lookup_insert_ne.
  - intros key key' s Hne. unfold same_at; simpl.
    by rewrite !lookup_delete_ne.
  - done.
  - done.
  - intros s flag. simpl. case_bool_decide; [apply NoDup_remove_dups | constructor].
Qed.






(** C7 (where the code departs from it). Start-up validation is meant to
    exit with code -1 when a segment of the path is missing from the input
    document.  On the empty document, where the segment [options] is missing,
    and on a document whose [region] is a scalar, with the path [region],
    where [options] is missing under [region], the command does not exit with
    -1: line 129 calls [.get] on a value that is not a mapping, the
    [AttributeError] is not caught, and the invalid-path diagnostic is not
    printed.  The store is left untouched there too. *)
Theorem startup_validation_raises_without_mapping :
  (segments EmptyString = ["options"]
   ∧ main Patch false (YNone : yaml Z) EmptyString scenario_store
     = (Raises "AttributeError", scenario_store, []))
  ∧ (segments "region" = ["region"; "options"]
     ∧ main Sync false scalar_document "region" scenario_store
       = (Raises "AttributeError", scenario_store, [])).
Proof. split; split; by vm_compute. Qed.

Lemma sync_absent_option_witness :
  options_filter scenario_store FLAG_AUTOMATOR_MODIFIABLE = ["a"; "b"] ++ "c" :: []
  ∧ dict_contains "c" (ctx_options_to_update (scenario_ctx false)) = false
  ∧ (let before := for_each ["a"; "b"] (sync_option (scenario_ctx false)) scenario_store in
     options_isset (final before) "c" = true
     ∧ options_get_last_update_channel (final before) "c" ≠ Some AUTOMATOR
     ∧ sync_option (scenario_ctx false) "c" (final before)
       = (Returns (), final before, [Echo (DRIFT_MSG "c")])).
Proof.
  assert (options_filter scenario_store FLAG_AUTOMATOR_MODIFIABLE
          = ["a"; "b"] ++ "c" :: []) as Hel by (by vm_compute).
  assert (dict_contains "c" (ctx_options_to_update (scenario_ctx false)) = false)
    as Habsent by (by vm_compute).
  refine (conj Hel (conj Habsent _)). intros before.
  assert (options_isset (final before) "c" = true) as Hset by (by vm_compute).
  assert (options_get_last_update_channel (final before) "c" ≠ Some AUTOMATOR)
    as Hchan by (by vm_compute).
  refine (conj Hset (conj Hchan _)).
  exact (proj1 (proj2 (proj2
           (sync_absent_option (scenario_ctx false) scenario_store
              ["a"; "b"] [] "c" Hel Habsent))) Hset Hchan).
Defined.


Lemma startup_validation_all_or_nothing_witness :
  (follow (segments "/object/data") scenario_document = PathMissing "object"
   ∧ result (main Sync false scenario_document "/object/data" scenario_store) = Exits (-1)
   ∧ final (main Sync false scenario_document "/object/data" scenario_store)
     = scenario_store
   ∧ mutations (trace (main Sync false scenario_document "/object/data" scenario_store))
     = [])
  ∧ (follow (segments EmptyString) scenario_document
     = PathFound (YDict (ctx_options_to_update (scenario_ctx false)))
     ∧ ("b", YLeaf 2%Z) ∈ ctx_options_to_update (scenario_ctx false)
     ∧ options_can_update guarded_store "b" (YLeaf 2%Z) AUTOMATOR
       = Some (OtherReason "readonly")
     ∧ OtherReason "readonly" ≠ DRIFTED
     ∧ result (main Patch false scenario_document EmptyString guarded_store) = Exits (-1)
     ∧ final (main Patch false scenario_document EmptyString guarded_store) = guarded_store
     ∧ mutations (trace (main Patch false scenario_document EmptyString guarded_store)) = []).
Proof.
  assert (follow (segments "/object/data") scenario_document = PathMissing "object")
    as Hmissing by (by vm_compute).
  assert (follow (segments EmptyString) scenario_document
          = PathFound (YDict (ctx_options_to_update (scenario_ctx false))))
    as Hfound by (by vm_compute).
  assert (("b", YLeaf 2%Z) ∈ ctx_options_to_update (scenario_ctx false)) as Hin.
  { apply list_elem_of_further, list_elem_of_here. }
  assert (options_can_update guarded_store "b" (YLeaf 2%Z) AUTOMATOR
          = Some (OtherReason "readonly")) as Hdenied by (by vm_compute).
  assert (OtherReason "readonly" ≠ DRIFTED) as Hreason by done.
  split.
  - refine (conj Hmissing _).
    exact (proj1 (proj2 (startup_validation_all_or_nothing
                           Sync false scenario_document "/object/data" scenario_store))
             "object" Hmissing).
  - refine (conj Hfound (conj Hin (conj Hdenied (conj Hreason _)))).
    exact (proj1 (proj2 (proj2 (startup_validation_all_or_nothing
                                  Patch false scenario_document EmptyString guarded_store)))
             _ "b" (YLeaf 2%Z) (OtherReason "readonly") Hfound Hin Hdenied Hreason).
Defined.

(** * Further properties of the command *)

(** ** The path *)

Section PathFacts.
Context {A S : Type} `{!PyEq (yaml A)} `{!OptionsStore (yaml A) S}.
Implicit Types (s : S) (doc : yaml A) (path : string) (sub : subcommand).
#[local] Arguments descend : simpl never.

Lemma bind_ret_l {V' S' B C} (b : B) (k : B → M V' S' C) (s' : S') :
  bind (ret b) k s' = k b s'.
Proof. unfold bind, ret. by destruct (k b s') as [[o s2] t2]. Qed.

(** The loop of lines 127-133 passes over empty segments. *)
Lemma descend_skips_empty (path_list : list string) (st : yaml A * string) s :
  for_fold path_list st descend s
  = for_fold (filter (λ key, key ≠ EmptyString) path_list) st descend s.
Proof.
  revert st s. induction path_list as [|key path_list IH]; intros st s; [done|].
  rewrite filter_cons. destruct (decide (key ≠ EmptyString)) as [Hkey|Hkey].
  - simpl. unfold bind.
    destruct (descend st key s) as [[[st'| |] s1] t1]; [|done|done].
    by rewrite IH.
  - simpl. replace (descend st key) with (ret st : M (yaml A) S _).
    + rewrite bind_ret_l. apply IH.
    + unfold descend. destruct st as [options_map current_path].
      by rewrite bool_decide_eq_false_2.
Qed.

Lemma configoptions_segments (dry_run : bool) doc path s :
  configoptions dry_run doc path s
  = bind (for_fold (segments path) (doc, EmptyString) descend)
      (λ st, match st.1 with
             | YDict options_map =>
                 do drifted_options <- for_fold options_map ∅ check_writable;
                 ret {| ctx_dry_run := dry_run;
                        ctx_options_to_update := options_map;
                        ctx_drifted_options := drifted_options |}
             | _ => raise "AttributeError"
             end) s.
Proof.
  unfold configoptions, segments. cbv zeta. unfold bind at 1 3.
  by rewrite descend_skips_empty.
Qed.

(** [split] always gives at least one piece. *)
Lemma split_on_not_nil (sep : ascii) (p : string) : split_on sep p ≠ [].
Proof.
  destruct p as [|c p]; simpl; [done|].
  case_bool_decide; [done|]. by destruct (split_on sep p).
Qed.

Lemma split_on_snoc (sep : ascii) (p : string) :
  split_on sep (p +:+ String sep EmptyString) = split_on sep p ++ [EmptyString].
Proof.
  induction p as [|c p IH]; simpl.
  - by rewrite (bool_decide_eq_true_2 (sep = sep)).
  - rewrite IH. case_bool_decide; [reflexivity|].
    pose proof (split_on_not_nil sep p). by destruct (split_on sep p).
Qed.

Lemma segments_options path :
  segments path
  = filter (λ key, key ≠ EmptyString) (split_on "/"%char path) ++ ["options"].
Proof. unfold segments. by rewrite filter_app. Qed.

Lemma segments_nonempty path : Forall (λ key, key ≠ EmptyString) (segments path).
Proof.
  unfold segments. apply Forall_forall. intros key Hin.
  by apply list_elem_of_filter in Hin as [Hkey _].
Qed.

(** X1. Only the non-empty segments of [--path] count: two paths with the
    same non-empty segments give the same run, start to end; so a leading or
    a trailing slash changes nothing. *)
Theorem path_slashes_ignored sub (dry_run : bool) doc s :
  (∀ path path', segments path = segments path' →
     main sub dry_run doc path s = main sub dry_run doc path' s)
  ∧ (∀ path, main sub dry_run doc ("/" +:+ path) s = main sub dry_run doc path s)
  ∧ (∀ path, main sub dry_run doc (path +:+ "/") s = main sub dry_run doc path s).
Proof.
  assert (∀ path path', segments path = segments path' →
            main sub dry_run doc path s = main sub dry_run doc path' s) as Hsame.
  { intros path path' Hseg. unfold main. unfold bind.
    by rewrite !configoptions_segments, Hseg. }
  split; [done|]. split; intros path; apply Hsame.
  - unfold segments. simpl. rewrite filter_cons. by rewrite decide_False by (by intros H).
  - rewrite !segments_options, split_on_snoc, filter_app. simpl.
    rewrite filter_cons, decide_False by (by intros H).
    by rewrite filter_nil, app_nil_r.
Qed.

(** The walk fails at the first segment that the mapping reached does not
    have, with the path walked so far in the diagnostic. *)
Lemma descend_missing (pre rest : list string) key (items : list (string * yaml A))
    doc (current_path : string) s :
  Forall (λ key, key ≠ EmptyString) (pre ++ key :: rest) →
  follow pre doc = PathFound (YDict items) →
  dict_lookup key items = None ∨ dict_lookup key items = Some YNone →
  for_fold (pre ++ key :: rest) (doc, current_path) descend s
  = (Exits (-1), s,
     [Echo ("Invalid path. Key " +:+ key +:+ " not found in /"
            +:+ foldl (λ current_path key, current_path +:+ "/" +:+ key)
                      current_path pre)]).
Proof.
  revert doc current_path.
  induction pre as [|k pre IH]; intros doc current_path Hne Hfollow Hlookup.
  - simpl in Hfollow. injection Hfollow as ->.
    apply Forall_cons in Hne as [Hkey _]. simpl. unfold bind at 1.
    unfold descend. rewrite bool_decide_eq_true_2 by done.
    by destruct Hlookup as [-> | ->].
  - rewrite <- app_comm_cons in *. apply Forall_cons in Hne as [Hk Hne].
    simpl in Hfollow. destruct doc as [|a|its]; [done|done|].
    simpl. unfold bind at 1. unfold descend at 1.
    rewrite bool_decide_eq_true_2 by done.
    destruct (dict_lookup k its) as [[|a|sub']|] eqn:Hl; [done| | |done].
    + simpl. rewrite (IH (YLeaf a)) by done. done.
    + simpl. rewrite (IH (YDict sub')) by done. done.
Qed.

(** X2. The diagnostic for a missing segment names the segment and the path
    walked before it, each walked key after a slash, behind the slash of the
    template: a segment missing at the top is "not found in /", one missing
    under [a] is "not found in //a".  The run exits with -1 having printed
    that one line and touched nothing. *)
Theorem invalid_path_diagnostic sub (dry_run : bool) doc path s
    (pre rest : list string) key (items : list (string * yaml A)) :
  segments path = pre ++ key :: rest →
  follow pre doc = PathFound (YDict items) →
  dict_lookup key items = None ∨ dict_lookup key items = Some YNone →
  main sub dry_run doc path s
  = (Exits (-1), s,
     [Echo ("Invalid path. Key " +:+ key +:+ " not found in /" +:+ walked pre)]).
Proof.
  intros Hseg Hfollow Hlookup. unfold main, bind at 1.
  rewrite configoptions_segments. unfold bind at 1.
  pose proof (segments_nonempty path) as Hne. rewrite Hseg in *.
  by rewrite (descend_missing pre rest key items) by done.
Qed.

(** X3. A document that is not a mapping, the empty document among them, and
    a path that runs into or ends at a value that is not a mapping make the
    command raise [AttributeError]: nothing is printed, not even the
    invalid-path diagnostic, and nothing is touched. *)
Theorem not_a_mapping_raises sub (dry_run : bool) path s :
  main sub dry_run YNone path s = (Raises "AttributeError", s, [])
  ∧ (∀ a, main sub dry_run (YLeaf a) path s = (Raises "AttributeError", s, []))
  ∧ (∀ doc, follow (segments path) doc = PathNotMapping →
       main sub dry_run doc path s = (Raises "AttributeError", s, []))
  ∧ (∀ doc a, follow (segments path) doc = PathFound (YLeaf a) →
       main sub dry_run doc path s = (Raises "AttributeError", s, [])).
Proof.
  assert (∀ doc, follow (segments path) doc = PathNotMapping →
            main sub dry_run doc path s = (Raises "AttributeError", s, [])) as Hnot.
  { intros doc Hfollow. destruct (main_run sub doc path s) as [cp Hrun].
    by rewrite Hrun, Hfollow. }
  assert (∃ key rest, segments path = key :: rest) as (key & rest & Hseg).
  { rewrite segments_options.
    destruct (filter _ (split_on "/" path)) as [|k l]; simpl; eauto. }
  split; [|split; [|split]].
  - apply Hnot. by rewrite Hseg.
  - intros a. apply Hnot. by rewrite Hseg.
  - done.
  - intros doc a Hfollow. destruct (main_run sub doc path s) as [cp Hrun].
    by rewrite Hrun, Hfollow.
Qed.

Lemma first_invalid_app (pre rest : list (string * yaml A)) key v reason s :
  Forall (λ item, options_can_update s item.1 item.2 AUTOMATOR = None
                  ∨ options_can_update s item.1 item.2 AUTOMATOR = Some DRIFTED) pre →
  options_can_update s key v AUTOMATOR = Some reason → reason ≠ DRIFTED →
  first_invalid s (pre ++ (key, v) :: rest) = Some (key, reason).
Proof.
  intros Hpre Hdenied Hreason. induction Hpre as [|item pre Hitem _ IH]; simpl.
  - unfold denied; simpl. rewrite Hdenied. by rewrite bool_decide_eq_false_2.
  - unfold denied at 1. destruct Hitem as [-> | ->]; [done|].
    by rewrite bool_decide_eq_true_2.
Qed.

(** X4. Validation stops at the first key, in the order of the document,
    that is denied for another reason than drift: the run prints the one
    diagnostic for that key, with the value of its reason, and exits with -1;
    the keys after it are not looked at, and the drifted keys before it give
    no line. *)
Theorem first_invalid_option_reported sub (dry_run : bool) doc path s
    (pre rest : list (string * yaml A)) key v reason :
  follow (segments path) doc = PathFound (YDict (pre ++ (key, v) :: rest)) →
  Forall (λ item, options_can_update s item.1 item.2 AUTOMATOR = None
                  ∨ options_can_update s item.1 item.2 AUTOMATOR = Some DRIFTED) pre →
  options_can_update s key v AUTOMATOR = Some reason → reason ≠ DRIFTED →
  main sub dry_run doc path s
  = (Exits (-1), s,
     [Echo ("Invalid option. " +:+ key +:+ " cannot be updated. Reason "
            +:+ reason_value reason)]).
Proof.
  intros Hfollow Hpre Hdenied Hreason.
  destruct (main_run sub doc path s) as [cp Hrun].
  by rewrite Hrun, Hfollow, (first_invalid_app pre rest key v reason).
Qed.

End PathFacts.

(** ** Rounds that do not interfere *)

Section IndependentRounds.
Context {V S X : Type} `{!OptionsStore V S}.
Variable body : X → M V S unit.
Variable key_of : X → string.
Implicit Types (s : S) (x : X) (xs : list X).

Hypothesis body_returns : ∀ x s, result (body x s) = Returns ().
Hypothesis body_local : ∀ x s s',
  same_at (V := V) (key_of x) s s' → trace (body x s') = trace (body x s).
Hypothesis body_frame : ∀ x s key,
  key ≠ key_of x → same_at (V := V) key s (final (body x s)).

(** When each round concerns its own option, a loop over distinct options
    does what its rounds do one by one in the store of the start. *)
Lemma loop_rounds_independent xs s s' :
  NoDup (key_of <$> xs) →
  (∀ x, x ∈ xs → same_at (V := V) (key_of x) s s') →
  trace (for_each xs body s') = concat ((λ x, trace (body x s)) <$> xs).
Proof.
  revert s'. induction xs as [|y xs IH]; intros s' Hnd Hsame; [done|].
  rewrite fmap_cons in Hnd. apply NoDup_cons in Hnd as [Hy Hnd].
  rewrite for_each_cons by done. unfold trace at 1; simpl. f_equal.
  - apply body_local, Hsame, list_elem_of_here.
  - apply IH; [done|]. intros x Hx.
    assert (key_of x ≠ key_of y) as Hne.
    { intros Heq. apply Hy. rewrite <- Heq. by apply list_elem_of_fmap_2. }
    pose proof (Hsame x (list_elem_of_further _ _ _ Hx)) as (Hg & Hc & Hi & Hu).
    pose proof (body_frame y s' _ Hne) as (Hg' & Hc' & Hi' & Hu').
    repeat split; [congruence..|]. intros v channel. by rewrite Hu', Hu.
Qed.

End IndependentRounds.

(** ** What the workflows reach and what they leave alone *)

Section Reach.
Context {A S : Type} `{!PyEq (yaml A)} `{!OptionsStore (yaml A) S}.
Implicit Types (s : S) (key name : string) (v : yaml A) (drifted : gset string).
Implicit Types (ctx : ctx_obj (A := A)) (items : list (string * yaml A)).
Implicit Types (doc : yaml A) (path : string) (sub : subcommand).

Lemma announced_app {V} (t1 t2 : list (event V)) :
  announced t1 → announced t2 → announced (t1 ++ t2).
Proof.
  intros H1 H2. induction t1 as [|e t1 IH]; [done|].
  destruct e as [msg|k w c ch|k]; simpl in *.
  - by apply IH.
  - destruct H1 as [Hhead H1]. split; [|by apply IH].
    destruct t1; [by destruct Hhead|done].
  - destruct H1 as [Hhead H1]. split; [|by apply IH].
    destruct t1; [done|done].
Qed.

Lemma announced_echoes {V} (msgs : list string) : announced (V := V) (Echo <$> msgs).
Proof. induction msgs; [done|]. by simpl. Qed.

Lemma attempt_update_announced key v drifted (dry_run : bool) s :
  announced (trace (_attempt_update key v drifted dry_run s)).
Proof.
  rewrite attempt_update_reconcile. unfold trace; simpl.
  destruct (action_writes (decision key v drifted s)) eqn:Hw; simpl.
  - destruct dry_run; simpl; [apply announced_echoes|].
    destruct (decision key v drifted s); try done; simpl; auto.
  - apply announced_echoes.
Qed.

Lemma sync_option_announced ctx name s :
  announced (trace (sync_option ctx name s)).
Proof.
  destruct (dict_contains name (ctx_options_to_update ctx)) eqn:Hc.
  - apply dict_contains_lookup in Hc as [v Hv].
    rewrite (sync_option_present _ _ v) by done. apply attempt_update_announced.
  - rewrite sync_option_absent_run by done.
    destruct (options_isset s name); [|done].
    case_bool_decide; [|done]. by destruct (ctx_dry_run ctx).
Qed.

Lemma loop_announced {X} (body : X → M (yaml A) S unit) (xs : list X) s :
  (∀ x s, result (body x s) = Returns ()) →
  (∀ x s, announced (trace (body x s))) →
  announced (trace (for_each xs body s)).
Proof.
  intros Hret Hann. revert s. induction xs as [|x xs IH]; intros s; [done|].
  rewrite for_each_cons by done. unfold trace at 1; simpl.
  by apply announced_app.
Qed.

(** X10. No silent mutation.  In the trace of an invocation, start-up
    included, every [options.set] is followed at once by the update or the
    channel-update line of its key, and every [options.delete] by the unset
    line of its key. *)
Theorem mutations_announced sub (dry_run : bool) doc path s :
  announced (trace (main sub dry_run doc path s)).
Proof.
  destruct (main_run sub doc path s) as [cp Hrun]. rewrite Hrun.
  destruct (follow _ doc) as [[|a|items]|key|]; [done|done| |done|done].
  destruct (first_invalid s items) as [[key reason]|]; [done|].
  destruct sub; unfold run_subcommand.
  - rewrite patch_run. unfold trace at 1; simpl.
    apply announced_app; [by destruct dry_run|].
    apply loop_announced; [apply patch_item_result|].
    intros [key v] s'. apply attempt_update_announced.
  - rewrite sync_run. unfold trace at 1; simpl.
    apply announced_app; [by destruct dry_run|].
    apply loop_announced; [apply sync_option_result | apply sync_option_announced].
Qed.

(** Each round of [sync] concerns the option it is run for. *)
Lemma sync_option_event_keys ctx name s :
  Forall (λ e, ∀ key, event_key e = Some key → key = name)
         (trace (sync_option ctx name s)).
Proof.
  destruct (dict_contains name (ctx_options_to_update ctx)) eqn:Hc.
  - apply dict_contains_lookup in Hc as [v Hv].
    rewrite (sync_option_present _ _ v) by done.
    rewrite attempt_update_reconcile. unfold trace; simpl.
    apply Forall_app. split.
    + destruct (_ && _); repeat constructor. by intros key [= <-].
    + destruct (decision _ _ _ _); repeat constructor; by intros key [=].
  - rewrite sync_option_absent_run by done.
    destruct (options_isset s name); [|constructor].
    case_bool_decide; [|repeat constructor; by intros key [=]].
    destruct (ctx_dry_run ctx); repeat constructor; by intros key [=].
Qed.

Lemma loop_Forall {X} (Q : event (yaml A) → Prop)
    (body : X → M (yaml A) S unit) (xs : list X) s :
  (∀ x s, result (body x s) = Returns ()) →
  (∀ x s, x ∈ xs → Forall Q (trace (body x s))) →
  Forall Q (trace (for_each xs body s)).
Proof.
  intros Hret. revert s. induction xs as [|x xs IH]; intros s HQ; [constructor|].
  rewrite for_each_cons by done. unfold trace at 1; simpl.
  apply Forall_app. split.
  - apply HQ, list_elem_of_here.
  - apply IH. intros y s' Hy. by apply HQ, list_elem_of_further.
Qed.

Context `{!OptionsStoreLaws (yaml A) S}.

(** X6. [patch] leaves alone what it is not asked to change: an option that
    is not a key of the input, and a key of the input that is in the drift
    set, are after the run as they were before it (value, last-update
    channel, whether set, what [can_update] answers). *)
Theorem patch_leaves_others_alone ctx s key :
  (key ∉ (ctx_options_to_update ctx).*1 →
   same_at (V := yaml A) key s (final (patch ctx s)))
  ∧ (dict_wf (ctx_options_to_update ctx) → key ∈ ctx_drifted_options ctx →
     same_at (V := yaml A) key s (final (patch ctx s))).
Proof.
  rewrite patch_run. unfold final at 1 2; simpl.
  assert (key ∉ (ctx_options_to_update ctx).*1 →
          same_at (V := yaml A) key s
            (final (for_each (ctx_options_to_update ctx) (patch_item ctx) s))) as Hout.
  { apply (loop_frame _ fst (patch_item_result ctx)
             (λ item s key, patch_item_frame ctx item key s)). }
  split; [done|]. intros Hwf Hdrifted.
  destruct (decide (key ∈ (ctx_options_to_update ctx).*1)) as [Hin|Hin]; [|auto].
  apply list_elem_of_fmap in Hin as ([k v] & -> & Hin). simpl in *.
  apply (loop_untouched (patch_item ctx) fst
           (patch_item_result ctx) (patch_item_final ctx) (patch_item_local ctx)
           (λ item s key, patch_item_frame ctx item key s) _ s (k, v)); [done|done|].
  unfold patch_item. rewrite attempt_update_mutations. unfold decision.
  by rewrite bool_decide_eq_true_2.
Qed.

(** X7. [sync] only ever touches the options the registry enumerates: every
    mutating call of its trace concerns one of them, so a key of the input
    that is not enumerated is never written; and an option that is not
    enumerated, or a key of the input that is in the drift set, is after the
    run as it was before it. *)
Theorem sync_touches_enumerated_only ctx s key :
  Forall (λ e, ∀ key', event_key e = Some key' →
                 key' ∈ options_filter s FLAG_AUTOMATOR_MODIFIABLE)
         (trace (sync ctx s))
  ∧ (key ∉ options_filter s FLAG_AUTOMATOR_MODIFIABLE →
     same_at (V := yaml A) key s (final (sync ctx s)))
  ∧ (dict_contains key (ctx_options_to_update ctx) = true →
     key ∈ ctx_drifted_options ctx →
     same_at (V := yaml A) key s (final (sync ctx s))).
Proof.
  rewrite sync_run. unfold final at 1 2, trace at 1; simpl.
  set (eligible := options_filter s FLAG_AUTOMATOR_MODIFIABLE).
  assert (key ∉ eligible →
          same_at (V := yaml A) key s (final (for_each eligible (sync_option ctx) s)))
    as Hout.
  { intros Hkey.
    apply (loop_frame _ id (sync_option_result ctx)
             (λ name s key, sync_option_frame ctx name key s)).
    by rewrite list_fmap_id. }
  split; [|split; [done|]].
  - apply Forall_app. split; [destruct (ctx_dry_run ctx); repeat constructor; by intros k [=]|].
    apply loop_Forall; [apply sync_option_result|].
    intros name s' Hname.
    eapply Forall_impl; [apply sync_option_event_keys|].
    intros e He key' Hkey'. by rewrite (He key' Hkey').
  - intros Hc Hdrifted.
    destruct (decide (key ∈ eligible)) as [Hin|Hin]; [|auto].
    apply (loop_untouched (sync_option ctx) id
             (sync_option_result ctx) (sync_option_final ctx)
             (sync_option_trace_same_at ctx)
             (λ name s key, sync_option_frame ctx name key s) eligible s key);
      [rewrite list_fmap_id; apply filter_NoDup|done|].
    apply dict_contains_lookup in Hc as [v Hv].
    rewrite (sync_option_present _ _ v) by done.
    rewrite attempt_update_mutations. unfold decision.
    by rewrite bool_decide_eq_true_2.
Qed.

End Reach.

(** ** What a real run achieves *)

Section Convergence.
Context {A S : Type} `{!PyEq (yaml A)} `{!OptionsStore (yaml A) S}.
Context `{!OptionsStoreLaws (yaml A) S}.
Implicit Types (s : S) (key name : string) (v : yaml A) (drifted : gset string).
Implicit Types (ctx : ctx_obj (A := A)) (items : list (string * yaml A)).

(** A real round for a key outside the drift set that writes nothing finds
    the desired value, owned by the automation channel. *)
Lemma attempt_update_quiet_settled key v drifted s :
  key ∉ drifted →
  mutations (trace (_attempt_update key v drifted false s)) = [] →
  py_eq (options_get s key) v = true
  ∧ options_get_last_update_channel s key = Some AUTOMATOR.
Proof.
  intros Hkey. rewrite attempt_update_mutations. unfold decision, reconcile.
  rewrite bool_decide_eq_false_2, andb_true_r by done.
  destruct (py_eq (options_get s key) v); [|done].
  destruct (options_get_last_update_channel s key) as [channel|]; [|done].
  case_bool_decide as Hc; [by subst|done].
Qed.

(** X8. What a real [patch] achieves: after it, every key of the input
    outside the drift set reads back equal to its desired value and is owned
    by the automation channel. *)
Theorem patch_converges ctx s key v :
  ctx_dry_run ctx = false →
  dict_wf (ctx_options_to_update ctx) →
  (key, v) ∈ ctx_options_to_update ctx →
  key ∉ ctx_drifted_options ctx →
  py_eq (options_get (final (patch ctx s)) key) v = true
  ∧ options_get_last_update_channel (final (patch ctx s)) key = Some AUTOMATOR.
Proof.
  intros Hdry Hwf Hin Hkey.
  apply (attempt_update_quiet_settled key v (ctx_drifted_options ctx)); [done|].
  rewrite patch_run. unfold final at 1; simpl.
  assert (mutations (trace (patch_item ctx (key, v)
            (final (for_each (ctx_options_to_update ctx) (patch_item ctx) s)))) = [])
    as Hquiet.
  { apply (loop_quiescent (patch_item ctx) fst (patch_item_result ctx)
             (patch_item_local ctx)
             (λ item s key, patch_item_frame ctx item key s)); [|done|done].
    intros item s' _. apply patch_item_settles; [done|]. apply laws_reads_back. }
  unfold patch_item at 1 in Hquiet. by rewrite Hdry in Hquiet.
Qed.

(** X9. What a real [sync] achieves, for every option the registry
    enumerates: one that the input binds to a value, outside the drift set,
    reads back equal to that value and is owned by the automation channel;
    one that the input does not mention is not set any more, unless another
    channel than the automation channel owns it. *)
Theorem sync_converges ctx s name :
  ctx_dry_run ctx = false →
  name ∈ options_filter s FLAG_AUTOMATOR_MODIFIABLE →
  (∀ v, dict_lookup name (ctx_options_to_update ctx) = Some v →
        name ∉ ctx_drifted_options ctx →
        py_eq (options_get (final (sync ctx s)) name) v = true
        ∧ options_get_last_update_channel (final (sync ctx s)) name = Some AUTOMATOR)
  ∧ (dict_contains name (ctx_options_to_update ctx) = false →
     options_isset (final (sync ctx s)) name = false
     ∨ options_get_last_update_channel (final (sync ctx s)) name ≠ Some AUTOMATOR).
Proof.
  intros Hdry Hname.
  assert (mutations (trace (sync_option ctx name (final (sync ctx s)))) = []) as Hquiet.
  { rewrite sync_run. unfold final at 1; simpl.
    apply (loop_quiescent (sync_option ctx) id (sync_option_result ctx)
             (sync_option_trace_same_at ctx)
             (λ name s key, sync_option_frame ctx name key s));
      [|rewrite list_fmap_id; apply filter_NoDup|done].
    intros name' s' _. apply sync_option_settles; [done|].
    apply Forall_forall. intros item _. apply laws_reads_back. }
  split.
  - intros v Hv Hkey. rewrite (sync_option_present _ _ v), Hdry in Hquiet by done.
    by apply (attempt_update_quiet_settled name v (ctx_drifted_options ctx)).
  - intros Hc. rewrite sync_option_absent_run, Hdry in Hquiet by done.
    destruct (options_isset (final (sync ctx s)) name); [|by left].
    right. by case_bool_decide.
Qed.

Lemma patch_trace_by_rounds ctx s :
  dict_wf (ctx_options_to_update ctx) →
  trace (patch ctx s)
  = (if ctx_dry_run ctx then [Echo DRY_RUN_BANNER] else [])
    ++ concat ((λ item : string * yaml A,
                  let outcome := decision item.1 item.2 (ctx_drifted_options ctx) s in
                  (if action_writes outcome && negb (ctx_dry_run ctx)
                   then [OptionsSet item.1 item.2 false AUTOMATOR] else [])
                  ++ (Echo <$> action_message outcome item.1))
               <$> ctx_options_to_update ctx).
Proof.
  intros Hwf. rewrite patch_run. unfold trace at 1; simpl. f_equal.
  rewrite (loop_rounds_independent (patch_item ctx) fst (patch_item_result ctx)
             (patch_item_local ctx)
             (λ item s key, patch_item_frame ctx item key s) _ s s);
    [|done|intros; apply same_at_refl].
  f_equal. apply list_fmap_ext. intros i [key v] _. unfold patch_item; simpl.
  by rewrite attempt_update_reconcile.
Qed.

Lemma sync_trace_by_rounds ctx s :
  trace (sync ctx s)
  = (if ctx_dry_run ctx then [Echo DRY_RUN_BANNER] else [])
    ++ concat ((λ name, trace (sync_option ctx name s))
               <$> options_filter s FLAG_AUTOMATOR_MODIFIABLE).
Proof.
  rewrite sync_run. unfold trace at 1; simpl. f_equal.
  apply (loop_rounds_independent (sync_option ctx) id (sync_option_result ctx)
           (sync_option_trace_same_at ctx)
           (λ name s key, sync_option_frame ctx name key s)).
  - rewrite list_fmap_id. apply filter_NoDup.
  - intros; apply same_at_refl.
Qed.

(** X11. The rounds of [patch] do not interfere: for an input with distinct
    keys the trace is the banner of a dry run followed, key by key in the
    order of the document, by what the decision table gives for the key in
    the store as it was at the start: the stamped write when the outcome
    writes and the run is real, then the line of the outcome. *)
Theorem patch_rounds_independent ctx s :
  dict_wf (ctx_options_to_update ctx) →
  trace (patch ctx s)
  = (if ctx_dry_run ctx then [Echo DRY_RUN_BANNER] else [])
    ++ concat ((λ item : string * yaml A,
                  let outcome := decision item.1 item.2 (ctx_drifted_options ctx) s in
                  (if action_writes outcome && negb (ctx_dry_run ctx)
                   then [OptionsSet item.1 item.2 false AUTOMATOR] else [])
                  ++ (Echo <$> action_message outcome item.1))
               <$> ctx_options_to_update ctx).
Proof. apply patch_trace_by_rounds. Qed.

(** X12. The rounds of [sync] do not interfere either: the trace is the
    banner of a dry run followed by the traces of the rounds of the
    enumerated options, in the order of the enumeration, each as it runs in
    the store of the start. *)
Theorem sync_rounds_independent ctx s :
  trace (sync ctx s)
  = (if ctx_dry_run ctx then [Echo DRY_RUN_BANNER] else [])
    ++ concat ((λ name, trace (sync_option ctx name s))
               <$> options_filter s FLAG_AUTOMATOR_MODIFIABLE).
Proof. apply sync_trace_by_rounds. Qed.

End Convergence.

(** ** The message templates *)

Lemma string_length_app (k t : string) :
  String.length (k +:+ t) = String.length k + String.length t.
Proof. induction k as [|c k IH]; simpl; [done|]. by rewrite IH. Qed.

Lemma string_app_inv_tail (k k' t : string) : k +:+ t = k' +:+ t → k = k'.
Proof.
  revert k'. induction k as [|c k IH]; intros [|c' k'] Heq; simpl in *.
  - done.
  - exfalso. apply (f_equal String.length) in Heq. simpl in Heq.
    rewrite !string_length_app in Heq. simpl in Heq. lia.
  - exfalso. apply (f_equal String.length) in Heq. simpl in Heq.
    rewrite !string_length_app in Heq. simpl in Heq. lia.
  - injection Heq as -> Heq. f_equal. by apply IH.
Qed.

Lemma DRIFT_MSG_inj key key' : DRIFT_MSG key = DRIFT_MSG key' → key = key'.
Proof. intros Heq. injection Heq as Heq. exact (string_app_inv_tail key key' _ Heq). Qed.

Lemma CHANNEL_UPDATE_MSG_inj key key' :
  CHANNEL_UPDATE_MSG key = CHANNEL_UPDATE_MSG key' → key = key'.
Proof. intros Heq. injection Heq as Heq. exact (string_app_inv_tail key key' _ Heq). Qed.

Lemma UPDATE_MSG_inj key key' : UPDATE_MSG key = UPDATE_MSG key' → key = key'.
Proof. intros Heq. injection Heq as Heq. exact (string_app_inv_tail key key' _ Heq). Qed.

Lemma UNSET_MSG_inj key key' : UNSET_MSG key = UNSET_MSG key' → key = key'.
Proof. intros Heq. injection Heq as Heq. exact (string_app_inv_tail key key' _ Heq). Qed.

Lemma messages_distinct key key' :
  DRIFT_MSG key ≠ CHANNEL_UPDATE_MSG key'
  ∧ DRIFT_MSG key ≠ UPDATE_MSG key'
  ∧ DRIFT_MSG key ≠ UNSET_MSG key'
  ∧ CHANNEL_UPDATE_MSG key ≠ UPDATE_MSG key'
  ∧ CHANNEL_UPDATE_MSG key ≠ UNSET_MSG key'
  ∧ UPDATE_MSG key ≠ UNSET_MSG key'.
Proof. repeat split; intros Heq; discriminate Heq. Qed.

(** X13. A printed line tells which action was taken on which key: each of
    the four templates of lines 11-14 gives different lines for different
    keys, and no two templates ever give the same line. *)
Theorem messages_tell_action_and_key (key key' : string) :
  (DRIFT_MSG key = DRIFT_MSG key' → key = key')
  ∧ (CHANNEL_UPDATE_MSG key = CHANNEL_UPDATE_MSG key' → key = key')
  ∧ (UPDATE_MSG key = UPDATE_MSG key' → key = key')
  ∧ (UNSET_MSG key = UNSET_MSG key' → key = key')
  ∧ DRIFT_MSG key ≠ CHANNEL_UPDATE_MSG key'
  ∧ DRIFT_MSG key ≠ UPDATE_MSG key'
  ∧ DRIFT_MSG key ≠ UNSET_MSG key'
  ∧ CHANNEL_UPDATE_MSG key ≠ UPDATE_MSG key'
  ∧ CHANNEL_UPDATE_MSG key ≠ UNSET_MSG key'
  ∧ UPDATE_MSG key ≠ UNSET_MSG key'.
Proof.
  split; [apply DRIFT_MSG_inj|]. split; [apply CHANNEL_UPDATE_MSG_inj|].
  split; [apply UPDATE_MSG_inj|]. split; [apply UNSET_MSG_inj|].
  apply messages_distinct.
Qed.

(** ** A dry run as a preview *)

Section Preview.
Context {A S : Type} `{!PyEq (yaml A)} `{!OptionsStore (yaml A) S}.
Context `{!OptionsStoreLaws (yaml A) S}.
Implicit Types (s : S) (key name : string) (v : yaml A) (drifted : gset string).
Implicit Types (items : list (string * yaml A)).

Lemma Echo_inj {V} (a b : string) : Echo (V := V) a = Echo b → a = b.
Proof.
  intros Heq. exact (f_equal (λ e, match e with Echo msg => msg | _ => a end) Heq).
Qed.

Lemma elem_of_concat_fmap {X Y} (f : X → list Y) (l : list X) (y : Y) :
  y ∈ concat (f <$> l) ↔ ∃ x, x ∈ l ∧ y ∈ f x.
Proof.
  induction l as [|x l IH]; simpl.
  - split; [by intros ?%elem_of_nil | by intros (x & ?%elem_of_nil & _)].
  - rewrite elem_of_app, IH. split.
    + intros [Hy|(x' & Hx' & Hy)].
      * exists x. split; [apply list_elem_of_here | done].
      * exists x'. split; [by apply list_elem_of_further | done].
    + intros (x' & [->|Hx']%elem_of_cons & Hy); [by left|].
      right. by exists x'.
Qed.

(** X14. A dry [patch] previews the writes of the real one: for an input
    with distinct keys, the real run writes a key of the input exactly when
    the dry run, from the same store, prints the update or the
    channel-update line of that key. *)
Theorem dry_patch_previews_writes items drifted s key v :
  dict_wf items →
  (key, v) ∈ items →
  let real := patch {| ctx_dry_run := false; ctx_options_to_update := items;
                       ctx_drifted_options := drifted |} s in
  let dry := patch {| ctx_dry_run := true; ctx_options_to_update := items;
                      ctx_drifted_options := drifted |} s in
  OptionsSet key v false AUTOMATOR ∈ trace real
  ↔ Echo (UPDATE_MSG key) ∈ trace dry ∨ Echo (CHANNEL_UPDATE_MSG key) ∈ trace dry.
Proof.
  intros Hwf Hin real dry. subst real dry.
  rewrite !patch_trace_by_rounds by done. simpl.
  rewrite !elem_of_cons, !elem_of_concat_fmap.
  split.
  - intros ([k w] & Hitem & Hset). simpl in Hset.
    rewrite andb_true_r in Hset. apply elem_of_app in Hset as [Hset|Hset].
    + destruct (action_writes (decision k w drifted s)) eqn:Hw;
        [|by apply elem_of_nil in Hset].
      apply list_elem_of_singleton in Hset. injection Hset as Hk Hv. subst k w.
      destruct (decision key v drifted s) eqn:Hdec; try done.
      * left. right. exists (key, v). split; [done|]. simpl.
        rewrite Hdec. simpl. apply list_elem_of_here.
      * right. right. exists (key, v). split; [done|]. simpl.
        rewrite Hdec. simpl. apply list_elem_of_here.
      * left. right. exists (key, v). split; [done|]. simpl.
        rewrite Hdec. simpl. apply list_elem_of_here.
    + apply list_elem_of_fmap in Hset as (msg & [=] & _).
  - assert (∀ msg, (msg = UPDATE_MSG key ∨ msg = CHANNEL_UPDATE_MSG key) →
              (∃ item : string * yaml A, item ∈ items
                 ∧ Echo msg ∈ (if action_writes (decision item.1 item.2 drifted s)
                                  && negb true
                               then [OptionsSet item.1 item.2 false AUTOMATOR] else [])
                              ++ (Echo <$> action_message
                                             (decision item.1 item.2 drifted s) item.1)) →
              ∃ item : string * yaml A, item ∈ items
                 ∧ OptionsSet key v false AUTOMATOR
                   ∈ (if action_writes (decision item.1 item.2 drifted s) && negb false
                      then [OptionsSet item.1 item.2 false AUTOMATOR] else [])
                     ++ (Echo <$> action_message
                                    (decision item.1 item.2 drifted s) item.1)) as Hback.
    { intros msg Hmsg ([k w] & Hitem & Hecho). simpl in Hecho.
      rewrite andb_false_r in Hecho. simpl in Hecho.
      apply list_elem_of_fmap in Hecho as (msg' & [= <-] & Hmsg').
      assert (k = key ∧ action_writes (decision k w drifted s) = true) as [-> Hw].
      { destruct (decision k w drifted s); simpl in Hmsg';
          try (by apply elem_of_nil in Hmsg');
          apply list_elem_of_singleton in Hmsg'; subst msg;
          destruct Hmsg as [Hmsg|Hmsg]; destruct (messages_distinct k key)
            as (? & ? & ? & ? & ? & ?);
          destruct (messages_distinct key k) as (? & ? & ? & ? & ? & ?);
          try congruence;
          first [ apply UPDATE_MSG_inj in Hmsg | apply CHANNEL_UPDATE_MSG_inj in Hmsg ];
          by subst. }
      assert (w = v) as ->.
      { apply (elem_of_dict_lookup _ _ _ Hwf) in Hitem, Hin. congruence. }
      exists (key, v). split; [done|]. simpl. rewrite Hw. simpl.
      apply list_elem_of_here. }
    intros [[Hb|Hecho]|[Hb|Hecho]]; try (by injection Hb).
    + apply (Hback (UPDATE_MSG key)); auto.
    + apply (Hback (CHANNEL_UPDATE_MSG key)); auto.
Qed.

(** X15. A dry [sync] previews the deletions of the real one: the real run
    deletes an option exactly when the dry run, from the same store, prints
    the unset line of that option. *)
Theorem dry_sync_previews_deletes items drifted s name :
  let real := sync {| ctx_dry_run := false; ctx_options_to_update := items;
                      ctx_drifted_options := drifted |} s in
  let dry := sync {| ctx_dry_run := true; ctx_options_to_update := items;
                     ctx_drifted_options := drifted |} s in
  OptionsDelete name ∈ trace real ↔ Echo (UNSET_MSG name) ∈ trace dry.
Proof.
  cbv zeta. rewrite !sync_trace_by_rounds. simpl.
  rewrite elem_of_cons, !elem_of_concat_fmap.
  set (ctxR := {| ctx_dry_run := false; ctx_options_to_update := items;
                  ctx_drifted_options := drifted |}).
  set (ctxD := {| ctx_dry_run := true; ctx_options_to_update := items;
                  ctx_drifted_options := drifted |}).
  split.
  - intros (n & Hn & Hdel). right. exists n. split; [done|].
    destruct (dict_contains n items) eqn:Hc.
    + apply dict_contains_lookup in Hc as [v Hv].
      rewrite (sync_option_present ctxR _ v) in Hdel by done.
      rewrite attempt_update_reconcile in Hdel. unfold trace in Hdel; simpl in Hdel.
      apply elem_of_app in Hdel as [Hdel|Hdel].
      * destruct (_ && _); [by apply list_elem_of_singleton in Hdel|].
        by apply elem_of_nil in Hdel.
      * by apply list_elem_of_fmap in Hdel as (msg & [=] & _).
    + rewrite (sync_option_absent_run ctxR) in Hdel by done.
      rewrite (sync_option_absent_run ctxD) by done.
      destruct (options_isset s n); [|by apply elem_of_nil in Hdel].
      case_bool_decide.
      * unfold trace in *; simpl in *.
        apply elem_of_cons in Hdel as [[= ->]|Hdel]; [apply list_elem_of_here|].
        by apply list_elem_of_singleton in Hdel.
      * unfold trace in Hdel; simpl in Hdel.
        by apply list_elem_of_singleton in Hdel.
  - intros [Hb|(n & Hn & Hecho)]; [by injection Hb|].
    exists n. split; [done|].
    destruct (messages_distinct n name) as (_ & _ & Hdrift & _ & Hchannel & Hupdate).
    destruct (dict_contains n items) eqn:Hc.
    + apply dict_contains_lookup in Hc as [v Hv].
      rewrite (sync_option_present ctxD _ v) in Hecho by done.
      rewrite attempt_update_reconcile in Hecho. unfold trace in Hecho; simpl in Hecho.
      rewrite andb_false_r in Hecho. simpl in Hecho.
      apply list_elem_of_fmap in Hecho as (msg & [= <-] & Hmsg).
      destruct (decision n v drifted s); simpl in Hmsg;
        try (by apply elem_of_nil in Hmsg);
        apply list_elem_of_singleton in Hmsg; congruence.
    + rewrite (sync_option_absent_run ctxD) in Hecho by done.
      rewrite (sync_option_absent_run ctxR) by done.
      destruct (options_isset s n); [|by apply elem_of_nil in Hecho].
      case_bool_decide; unfold trace in *; simpl in *.
      * apply list_elem_of_singleton, Echo_inj, UNSET_MSG_inj in Hecho.
        subst n. apply list_elem_of_here.
      * apply list_elem_of_singleton, Echo_inj in Hecho. congruence.
Qed.

End Preview.

(** ** The further properties at work on the reference store *)

Lemma scenario_ctx_wf : dict_wf (ctx_options_to_update (scenario_ctx false)).
Proof. unfold dict_wf. apply (bool_decide_unpack _). by vm_compute. Defined.

Lemma path_slashes_ignored_witness :
  segments "/region//prod/" = segments "region/prod"
  ∧ main Sync false nested_document "/region//prod/" scenario_store
    = main Sync false nested_document "region/prod" scenario_store.
Proof.
  assert (segments "/region//prod/" = segments "region/prod") as Hseg
    by (by vm_compute).
  refine (conj Hseg _).
  exact (proj1 (path_slashes_ignored Sync false nested_document scenario_store)
           "/region//prod/" "region/prod" Hseg).
Defined.

Lemma invalid_path_diagnostic_witness :
  segments "region/staging" = ["region"] ++ "staging" :: ["options"]
  ∧ follow ["region"] nested_document
    = PathFound (YDict [("prod", scenario_document); ("empty", YNone)])
  ∧ (dict_lookup "staging" [("prod", scenario_document); ("empty", YNone)] = None
     ∨ dict_lookup "staging" [("prod", scenario_document); ("empty", YNone)]
       = Some YNone)
  ∧ main Patch false nested_document "region/staging" scenario_store
    = (Exits (-1), scenario_store,
       [Echo ("Invalid path. Key staging not found in /" +:+ walked ["region"])]).
Proof.
  assert (segments "region/staging" = ["region"] ++ "staging" :: ["options"])
    as Hseg by (by vm_compute).
  assert (follow ["region"] nested_document
          = PathFound (YDict [("prod", scenario_document); ("empty", YNone)]))
    as Hfollow by (by vm_compute).
  assert (dict_lookup "staging" [("prod", scenario_document); ("empty", YNone)] = None
          ∨ dict_lookup "staging" [("prod", scenario_document); ("empty", YNone)]
            = Some YNone) as Hlookup by (left; by vm_compute).
  refine (conj Hseg (conj Hfollow (conj Hlookup _))).
  exact (invalid_path_diagnostic Patch false nested_document "region/staging"
           scenario_store ["region"] ["options"] "staging" _ Hseg Hfollow Hlookup).
Defined.

Lemma first_invalid_option_reported_witness :
  follow (segments EmptyString) scenario_document
  = PathFound (YDict ([("a", YLeaf 1%Z)] ++ ("b", YLeaf 2%Z) :: []))
  ∧ Forall (λ item : string * yaml Z,
              options_can_update guarded_store item.1 item.2 AUTOMATOR = None
              ∨ options_can_update guarded_store item.1 item.2 AUTOMATOR = Some DRIFTED)
           [("a", YLeaf 1%Z)]
  ∧ options_can_update guarded_store "b" (YLeaf 2%Z) AUTOMATOR
    = Some (OtherReason "readonly")
  ∧ OtherReason "readonly" ≠ DRIFTED
  ∧ main Sync true scenario_document EmptyString guarded_store
    = (Exits (-1), guarded_store,
       [Echo ("Invalid option. " +:+ "b" +:+ " cannot be updated. Reason "
              +:+ reason_value (OtherReason "readonly"))]).
Proof.
  assert (follow (segments EmptyString) scenario_document
          = PathFound (YDict ([("a", YLeaf 1%Z)] ++ ("b", YLeaf 2%Z) :: [])))
    as Hfollow by (by vm_compute).
  assert (Forall (λ item : string * yaml Z,
                    options_can_update guarded_store item.1 item.2 AUTOMATOR = None
                    ∨ options_can_update guarded_store item.1 item.2 AUTOMATOR
                      = Some DRIFTED) [("a", YLeaf 1%Z)]) as Hpre.
  { constructor; [left; by vm_compute | constructor]. }
  assert (options_can_update guarded_store "b" (YLeaf 2%Z) AUTOMATOR
          = Some (OtherReason "readonly")) as Hdenied by (by vm_compute).
  assert (OtherReason "readonly" ≠ DRIFTED) as Hreason by done.
  refine (conj Hfollow (conj Hpre (conj Hdenied (conj Hreason _)))).
  exact (first_invalid_option_reported Sync true scenario_document EmptyString
           guarded_store [("a", YLeaf 1%Z)] [] "b" (YLeaf 2%Z)
           (OtherReason "readonly") Hfollow Hpre Hdenied Hreason).
Defined.

Lemma patch_leaves_others_alone_witness :
  ("c" ∉ (ctx_options_to_update (scenario_ctx false)).*1)
  ∧ same_at (V := yaml Z) "c" scenario_store
      (final (patch (scenario_ctx false) scenario_store)).
Proof.
  assert ("c" ∉ (ctx_options_to_update (scenario_ctx false)).*1) as Hout.
  { apply (bool_decide_unpack _). by vm_compute. }
  refine (conj Hout _).
  exact (proj1 (patch_leaves_others_alone (scenario_ctx false) scenario_store "c") Hout).
Defined.

Lemma sync_touches_enumerated_only_witness :
  ("z" ∉ options_filter scenario_store FLAG_AUTOMATOR_MODIFIABLE)
  ∧ same_at (V := yaml Z) "z" scenario_store
      (final (sync (scenario_ctx false) scenario_store)).
Proof.
  assert ("z" ∉ options_filter scenario_store FLAG_AUTOMATOR_MODIFIABLE) as Hout.
  { apply (bool_decide_unpack _). by vm_compute. }
  refine (conj Hout _).
  exact (proj1 (proj2 (sync_touches_enumerated_only (scenario_ctx false)
                         scenario_store "z")) Hout).
Defined.

Lemma patch_converges_witness :
  ctx_dry_run (scenario_ctx false) = false
  ∧ dict_wf (ctx_options_to_update (scenario_ctx false))
  ∧ ("a", YLeaf 1%Z) ∈ ctx_options_to_update (scenario_ctx false)
  ∧ ("a" ∉ ctx_drifted_options (scenario_ctx false))
  ∧ py_eq (options_get (final (patch (scenario_ctx false) scenario_store)) "a")
          (YLeaf 1%Z) = true
  ∧ options_get_last_update_channel
      (final (patch (scenario_ctx false) scenario_store)) "a" = Some AUTOMATOR.
Proof.
  assert (("a", YLeaf 1%Z) ∈ ctx_options_to_update (scenario_ctx false)) as Hin
    by apply list_elem_of_here.
  assert ("a" ∉ ctx_drifted_options (scenario_ctx false)) as Hkey
    by apply not_elem_of_empty.
  refine (conj eq_refl (conj scenario_ctx_wf (conj Hin (conj Hkey _)))).
  exact (patch_converges (scenario_ctx false) scenario_store "a" (YLeaf 1%Z)
           eq_refl scenario_ctx_wf Hin Hkey).
Defined.

Lemma sync_converges_witness :
  ctx_dry_run (scenario_ctx false) = false
  ∧ "c" ∈ options_filter orphan_store FLAG_AUTOMATOR_MODIFIABLE
  ∧ dict_contains "c" (ctx_options_to_update (scenario_ctx false)) = false
  ∧ (options_isset (final (sync (scenario_ctx false) orphan_store)) "c" = false
     ∨ options_get_last_update_channel
         (final (sync (scenario_ctx false) orphan_store)) "c" ≠ Some AUTOMATOR).
Proof.
  assert ("c" ∈ options_filter orphan_store FLAG_AUTOMATOR_MODIFIABLE) as Hname.
  { apply (bool_decide_unpack _). by vm_compute. }
  assert (dict_contains "c" (ctx_options_to_update (scenario_ctx false)) = false)
    as Habsent by (by vm_compute).
  refine (conj eq_refl (conj Hname (conj Habsent _))).
  exact (proj2 (sync_converges (scenario_ctx false) orphan_store "c" eq_refl Hname)
           Habsent).
Defined.

Lemma patch_rounds_independent_witness :
  dict_wf (ctx_options_to_update (scenario_ctx false))
  ∧ trace (patch (scenario_ctx false) scenario_store)
    = [] ++ concat ((λ item : string * yaml Z,
                       let outcome := decision item.1 item.2 ∅ scenario_store in
                       (if action_writes outcome && negb false
                        then [OptionsSet item.1 item.2 false AUTOMATOR] else [])
                       ++ (Echo <$> action_message outcome item.1))
                    <$> ctx_options_to_update (scenario_ctx false)).
Proof.
  refine (conj scenario_ctx_wf _).
  exact (patch_rounds_independent (scenario_ctx false) scenario_store scenario_ctx_wf).
Defined.

Lemma sync_rounds_independent_witness :
  trace (sync (scenario_ctx false) orphan_store)
  = [] ++ concat ((λ name, trace (sync_option (scenario_ctx false) name orphan_store))
                  <$> options_filter orphan_store FLAG_AUTOMATOR_MODIFIABLE).
Proof. exact (sync_rounds_independent (scenario_ctx false) orphan_store). Defined.

Lemma dry_patch_previews_writes_witness :
  dict_wf (ctx_options_to_update (scenario_ctx false))
  ∧ ("a", YLeaf 1%Z) ∈ ctx_options_to_update (scenario_ctx false)
  ∧ (OptionsSet "a" (YLeaf 1%Z) false AUTOMATOR
       ∈ trace (patch (scenario_ctx false) scenario_store)
     ↔ Echo (UPDATE_MSG "a") ∈ trace (patch (scenario_ctx true) scenario_store)
       ∨ Echo (CHANNEL_UPDATE_MSG "a") ∈ trace (patch (scenario_ctx true) scenario_store)).
Proof.
  assert (("a", YLeaf 1%Z) ∈ ctx_options_to_update (scenario_ctx false)) as Hin
    by apply list_elem_of_here.
  refine (conj scenario_ctx_wf (conj Hin _)).
  exact (dry_patch_previews_writes (ctx_options_to_update (scenario_ctx false)) ∅
           scenario_store "a" (YLeaf 1%Z) scenario_ctx_wf Hin).
Defined.

Lemma dry_sync_previews_deletes_witness :
  OptionsDelete "c" ∈ trace (sync (scenario_ctx false) orphan_store)
  ↔ Echo (UNSET_MSG "c") ∈ trace (sync (scenario_ctx true) orphan_store).
Proof.
  exact (dry_sync_previews_deletes (ctx_options_to_update (scenario_ctx false)) ∅
           orphan_store "c").
Defined.

(** In [orphan_store] the real [sync] does delete [c], and says so. *)
Example orphan_sync :
  trace (sync (scenario_ctx false) orphan_store)
  = [OptionsSet "a" (YLeaf 1%Z) false AUTOMATOR; Echo "[UPDATE] Option a updated.";
     OptionsDelete "c"; Echo "[UNSET] Option c unset."].
Proof. by vm_compute. Qed.

(** The diagnostic of the nested document shows the doubled slash. *)
Example nested_invalid_path :
  trace (main Patch false nested_document "region/staging" scenario_store)
  = [Echo "Invalid path. Key staging not found in //region"].
Proof. by vm_compute. Qed.
